(** * Text-processing actions: the JavaScript action and the Docker entrypoint

  A shallow embedding of the decision logic of
  - [action-javascript/index.js] ([analyzeText], [transformText],
    [validateText] and the [switch] of [run]), and
  - the entrypoint script of the Docker action (the [case] statement
    over [PROCESS_TYPE]),
  followed by the properties the specification states about the
  "operation dispatcher" abstracted from both. *)

From Stdlib Require Import String Ascii.
From Stdlib Require Import List Bool Arith PeanoNat NArith ZArith Lia.
From Stdlib Require Import SpecFloat.
From Stdlib Require Decimal DecimalString.
Import ListNotations.

Set Implicit Arguments.

(** ** Plain text: sequences of numbered characters *)

Module Text.

(** A text is the sequence of its units.  For the JavaScript action a unit
    is a UTF-16 code unit (what [length], [charAt] and [split('')] see).
    For the shell script it is what [${#MESSAGE}] counts: a character of
    the container's locale, or a byte that is part of no character. *)
Definition text := list N.

(** The units of an ASCII literal. *)
Definition str (s : string) : text :=
  map N_of_ascii (list_ascii_of_string s).

Fixpoint eqb (a b : text) : bool :=
  match a, b with
  | [], [] => true
  | x :: a', y :: b' => N.eqb x y && eqb a' b'
  | _, _ => false
  end.

(** Decimal rendering of a natural number, as [String(n)] in JavaScript
    and [$N] in the shell print it. *)
Definition of_nat (n : nat) : text :=
  str (DecimalString.NilZero.string_of_uint (Nat.to_uint n)).

Definition of_N (n : N) : text :=
  str (DecimalString.NilZero.string_of_uint (N.to_uint n)).

(** [parts.join(sep)]. *)
Fixpoint join (sep : text) (parts : list text) : text :=
  match parts with
  | [] => []
  | [p] => p
  | p :: rest => p ++ sep ++ join sep rest
  end.

(** Splitting at every occurrence of a one-unit separator; the result is
    never empty, and the separator never occurs in a piece. *)
Fixpoint split_on (sep : N) (s : text) : list text :=
  match s with
  | [] => [[]]
  | c :: s' =>
      if N.eqb c sep then [] :: split_on sep s'
      else match split_on sep s' with
           | piece :: rest => (c :: piece) :: rest
           | [] => [[c]]
           end
  end.

Definition LF : N := 10.
Definition SPACE : N := 32.

(** ASCII case mapping of one unit. *)
Definition ascii_upper (u : N) : bool := (N.leb 65 u && N.leb u 90)%bool.
Definition ascii_lower (u : N) : bool := (N.leb 97 u && N.leb u 122)%bool.
Definition ascii_to_lower (u : N) : N := if ascii_upper u then (u + 32)%N else u.
Definition ascii_to_upper (u : N) : N := if ascii_lower u then (u - 32)%N else u.
Definition is_ascii (u : N) : bool := N.ltb u 128.

End Text.

Import Text.

(** ** The ECMAScript built-ins the action uses *)

Module ECMAScript.

Definition jsstring := text.

(** [String.prototype.toLowerCase] and [toUpperCase] apply the Unicode
    default case conversion.  Its tables are not part of the action; the
    built-ins are an interface, and [CaseMappingLaws] lists what the
    proofs use of them. *)
Class CaseMapping := {
  toLowerCase : jsstring -> jsstring;
  toUpperCase : jsstring -> jsstring
}.

Class CaseMappingLaws (CM : CaseMapping) : Prop := {
  toLowerCase_ascii : forall s,
    forallb is_ascii s = true -> toLowerCase s = map ascii_to_lower s;
  toUpperCase_ascii : forall s,
    forallb is_ascii s = true -> toUpperCase s = map ascii_to_upper s;
  toLowerCase_idem : forall s,
    toLowerCase (toLowerCase s) = toLowerCase s
}.

(** The case conversion restricted to ASCII letters; it agrees with the
    built-ins on every ASCII string. *)
Definition ascii_case : CaseMapping :=
  {| toLowerCase := map ascii_to_lower; toUpperCase := map ascii_to_upper |}.

(** The same conversion with one letter outside the Basic Multilingual
    Plane: DESERET SMALL LETTER LONG I (U+10428, the code units D801 DC28),
    whose capital is U+10400 (D801 DC00).  A surrogate on its own has no
    case. *)
Fixpoint upper_with_deseret (s : jsstring) : jsstring :=
  match s with
  | [] => []
  | hi :: rest =>
      match rest with
      | lo :: rest' =>
          if (N.eqb hi 55297 && N.eqb lo 56360)%bool
          then 55297%N :: 56320%N :: upper_with_deseret rest'
          else ascii_to_upper hi :: upper_with_deseret rest
      | [] => [ascii_to_upper hi]
      end
  end.

Definition deseret_case : CaseMapping :=
  {| toLowerCase := map ascii_to_lower; toUpperCase := upper_with_deseret |}.

(** The regular-expression class [\s]: WhiteSpace and LineTerminator. *)
Definition is_whitespace (u : N) : bool :=
  ((N.leb 9 u && N.leb u 13)
   || N.eqb u 32 || N.eqb u 160 || N.eqb u 5760
   || (N.leb 8192 u && N.leb u 8202)
   || N.eqb u 8232 || N.eqb u 8233 || N.eqb u 8239 || N.eqb u 8287
   || N.eqb u 12288 || N.eqb u 65279)%bool.

(** The class [[a-zA-Z]]. *)
Definition is_a_zA_Z (u : N) : bool := (ascii_lower u || ascii_upper u)%bool.

(** [s.split('')]: one string per code unit. *)
Definition split_units (s : jsstring) : list jsstring :=
  map (fun u => [u]) s.

(** [s.split(/\s+/)]: the pieces between maximal runs of whitespace.
    [in_run] tells that the previous unit was whitespace, so that the run
    it belongs to has opened a new piece already. *)
Fixpoint split_whitespace_from (in_run : bool) (s : jsstring) : list jsstring :=
  match s with
  | [] => [[]]
  | c :: s' =>
      if is_whitespace c then
        if in_run then split_whitespace_from true s'
        else [] :: split_whitespace_from true s'
      else match split_whitespace_from false s' with
           | piece :: rest => (c :: piece) :: rest
           | [] => [[c]]
           end
  end.

Definition split_whitespace (s : jsstring) : list jsstring :=
  split_whitespace_from false s.

(** [s.charAt(i)] and [s.slice(i)] for an index within [0 .. length]. *)
Definition charAt (s : jsstring) (i : nat) : jsstring :=
  match nth_error s i with
  | Some u => [u]
  | None => []
  end.

Definition slice (s : jsstring) (i : nat) : jsstring := skipn i s.

(** [s.trim()]. *)
Fixpoint trimStart (s : jsstring) : jsstring :=
  match s with
  | c :: s' => if is_whitespace c then trimStart s' else s
  | [] => []
  end.

Definition trim (s : jsstring) : jsstring :=
  rev (trimStart (rev (trimStart s))).

(** [new Set(xs)]: the elements in insertion order, each kept once;
    strings are compared unit by unit. *)
Definition Set_add (x : jsstring) (s : list jsstring) : list jsstring :=
  if existsb (Text.eqb x) s then s else s ++ [x].

Definition Set_of (xs : list jsstring) : list jsstring :=
  fold_left (fun s x => Set_add x s) xs [].

(** UTF-16: surrogates, the encoding of a code point, and the code points
    a string iterates over (a surrogate that has no partner stands for
    itself). *)
Definition is_high_surrogate (u : N) : bool := (N.leb 55296 u && N.leb u 56319)%bool.
Definition is_low_surrogate (u : N) : bool := (N.leb 56320 u && N.leb u 57343)%bool.
Definition is_surrogate (u : N) : bool := (is_high_surrogate u || is_low_surrogate u)%bool.

Definition utf16_unit (cp : N) : jsstring :=
  if N.ltb cp 65536 then [cp]
  else [(55296 + (cp - 65536) / 1024)%N; (56320 + (cp - 65536) mod 1024)%N].

Definition utf16 (cps : list N) : jsstring := flat_map utf16_unit cps.

Fixpoint code_points (s : jsstring) : list N :=
  match s with
  | [] => []
  | hi :: rest =>
      match rest with
      | lo :: rest' =>
          if (is_high_surrogate hi && is_low_surrogate lo)%bool
          then (65536 + (hi - 55296) * 1024 + (lo - 56320))%N :: code_points rest'
          else hi :: code_points rest
      | [] => [hi]
      end
  end.

(** Numbers are IEEE-754 binary64 values: 53 bits of precision, exponents
    below 1024.  [Number_of_Z z] is the Number of the integer [z] (exact
    below 2^53) and [Number_div] is the operator [/], rounded to nearest,
    ties to even. *)
Definition Number_of_Z (z : Z) : spec_float :=
  binary_normalize 53 1024 z 0 false.

Definition Number_of_nat (n : nat) : spec_float := Number_of_Z (Z.of_nat n).

Definition Number_div (x y : spec_float) : spec_float := SFdiv 53 1024 x y.

(** [Number.prototype.toFixed(2)].  For a finite [x] below 10^21 it takes
    the integer [n] for which [n / 100 - x] is as close to zero as possible,
    the larger one when there are two, and writes [n] with a point before
    its last two digits.  [hundredths m e] is that [n] for the value
    [m * 2^e], computed exactly. *)
Definition hundredths (m : positive) (e : Z) : Z :=
  if (0 <=? e)%Z then (100 * Zpos m * 2 ^ e)%Z
  else ((200 * Zpos m + 2 ^ (- e)) / 2 ^ (1 - e))%Z.

Definition below_1e21 (m : positive) (e : Z) : bool :=
  if (0 <=? e)%Z then (Zpos m * 2 ^ e <? 10 ^ 21)%Z
  else (Zpos m <? 10 ^ 21 * 2 ^ (- e))%Z.

(** The numeral of [n] hundredths: the integer part, a point, two
    digits. *)
Definition decimal_2 (n : N) : jsstring :=
  of_N (n / 100) ++ str "." ++ [(48 + (n mod 100) / 10)%N; (48 + n mod 10)%N].

(** From 10^21 on [toFixed] gives [ToString(x)], which has another form and
    is not rendered here ([None]). *)
Definition Number_toFixed_2 (x : spec_float) : option jsstring :=
  match x with
  | S754_nan => Some (str "NaN")
  | S754_infinity sign => Some ((if sign then str "-" else []) ++ str "Infinity")
  | S754_zero _ => Some (str "0.00")
  | S754_finite sign m e =>
      if below_1e21 m e
      then Some ((if sign then str "-" else []) ++ decimal_2 (Z.to_N (hundredths m e)))
      else None
  end.

End ECMAScript.

Import ECMAScript.

(** ** Programs that log and may stop early *)

Module Effect.

Inductive outcome (X A : Type) : Type :=
| Returned (a : A)
| Thrown (x : X).

Arguments Returned {X A} a.
Arguments Thrown {X A} x.

Section Prog.
Variables E X : Type.

(** A computation appends events to the log and either returns a value
    or stops with an [X] (a JavaScript exception, a shell [exit]). *)
Definition prog (A : Type) : Type := list E -> outcome X A * list E.

Definition ret {A} (a : A) : prog A := fun log => (Returned a, log).

Definition bind {A B} (m : prog A) (k : A -> prog B) : prog B :=
  fun log =>
    match m log with
    | (Returned a, log') => k a log'
    | (Thrown x, log') => (Thrown x, log')
    end.

Definition emit (e : E) : prog unit := fun log => (Returned tt, log ++ [e]).

Definition throw {A} (x : X) : prog A := fun log => (Thrown x, log).

Definition catch {A} (m : prog A) (h : X -> prog A) : prog A :=
  fun log =>
    match m log with
    | (Returned a, log') => (Returned a, log')
    | (Thrown x, log') => h x log'
    end.
End Prog.

Arguments ret {E X A} a.
Arguments bind {E X A B} m k.
Arguments emit {E X} e.
Arguments throw {E X A} x.
Arguments catch {E X A} m h.

End Effect.

Import Effect.

Declare Scope prog_scope.
Delimit Scope prog_scope with prog.
Notation "x <- m ;; k" := (bind m (fun x => k))
(at level 61, m at next level, right associativity) : prog_scope.
Notation "m ;; k" := (bind m (fun _ => k))
(at level 61, right associativity) : prog_scope.


(** ** action-javascript/index.js *)

Module Action.

(** What [@actions/core] records: log lines by severity, outputs, failure. *)
Inductive event : Type :=
| info (message : jsstring)
| debug (message : jsstring)
| notice (message : jsstring)
| warning (message : jsstring)
| setOutput (name value : jsstring)
| setFailed (message : jsstring).

(** A JavaScript exception: an [Error] object with its two properties. *)
Record Error : Type := {
  message : jsstring;
  stack : jsstring
}.

(** The [stack] that the engine attaches to [new Error(message)]: the
    description of the error and of the call sites.  It is the engine's,
    not the action's; the empty string stands for an engine that records
    none. *)
Class Engine := {
  Error_stack : jsstring -> jsstring
}.

(** An engine whose stack is the description of the error alone. *)
Definition plain_engine : Engine :=
  {| Error_stack := fun message => str "Error: " ++ message |}.

Definition M : Type -> Type := prog event Error.

(** What [github.context] holds in a workflow run: the values the runner
    defines, and [payload] as [JSON.stringify(context.payload, null, 2)]
    writes it. *)
Record github_context : Type := {
  owner : jsstring;
  repo : jsstring;
  eventName : jsstring;
  workflow : jsstring;
  actor : jsstring;
  sha : jsstring;
  ref : jsstring;
  payload : jsstring
}.

(** [avgWordLength] is either the number [0] or the string that
    [(total / count).toFixed(2)] yields: the two operands of the quotient
    are kept, and [value_of] evaluates it. *)
Inductive average : Type :=
| Number_0
| toFixed_2 (total count : nat).

(** The value of a property that is a number or a string. *)
Inductive jsvalue : Type :=
| JSNumber (x : spec_float)
| JSString (s : jsstring).

(** The operands are exact as long as the text has fewer than 2^53 code
    units, which every string has. *)
Definition value_of (a : average) : option jsvalue :=
  match a with
  | Number_0 => Some (JSNumber (S754_zero false))
  | toFixed_2 total count =>
      option_map JSString
        (Number_toFixed_2 (Number_div (Number_of_nat total) (Number_of_nat count)))
  end.

Record analysis : Type := {
  charCount : nat;
  wordCount : nat;
  lineCount : nat;
  uniqueWords : nat;
  avgWordLength : average
}.

Record transformation : Type := {
  uppercase : jsstring;
  lowercase : jsstring;
  reversed : jsstring;
  capitalized : jsstring
}.

Record validation : Type := {
  isValid : bool;
  issues : list jsstring;
  textLength : nat
}.

(** The object [result] of [run]: one of the three shapes. *)
Inductive result : Type :=
| Analysis (r : analysis)
| Transformation (r : transformation)
| Validation (r : validation).

(** [{ type: ..., ...result }] *)
Record metadata : Type := {
  type : jsstring;
  spread : result
}.

(** The property names of a result object, in creation order: the keys
    [JSON.stringify] writes to the [processed-text] output. *)
Definition keys (r : result) : list jsstring :=
  match r with
  | Analysis _ =>
      [str "charCount"; str "wordCount"; str "lineCount"; str "uniqueWords";
       str "avgWordLength"]
  | Transformation _ =>
      [str "uppercase"; str "lowercase"; str "reversed"; str "capitalized"]
  | Validation _ => [str "isValid"; str "issues"; str "textLength"]
  end.

Section Helpers.
Context {CM : CaseMapping} {JS : Engine}.

Definition analyzeText (text : jsstring) : analysis :=
  let lines := split_on LF text in
  let words := filter (fun word => 0 <? length word) (split_whitespace text) in
  let uniqueWords := length (Set_of (map (fun w => toLowerCase w) words)) in
  {| charCount := length text;
     wordCount := length words;
     lineCount := length lines;
     uniqueWords := uniqueWords;
     avgWordLength :=
       if 0 <? length words
       then toFixed_2 (fold_left (fun sum word => sum + length word) words 0)
                      (length words)
       else Number_0 |}.

Definition transformText (text : jsstring) : transformation :=
  {| uppercase := toUpperCase text;
     lowercase := toLowerCase text;
     reversed := join [] (rev (split_units text));
     capitalized :=
       join [SPACE]
         (map (fun word => toUpperCase (charAt word 0) ++ toLowerCase (slice word 1))
              (split_on SPACE text)) |}.

Definition validateText (text : jsstring) : validation :=
  let issues := [] in
  let issues :=
    if length text =? 0 then issues ++ [str "Text is empty"] else issues in
  let issues :=
    if 1000 <? length text
    then issues ++ [str "Text is too long (>1000 chars)"] else issues in
  let issues :=
    if negb (existsb is_a_zA_Z text)
    then issues ++ [str "No alphabetic characters found"] else issues in
  {| isValid := length issues =? 0;
     issues := issues;
     textLength := length text |}.

(** Template-literal renderings. *)
Definition Boolean_toString (b : bool) : jsstring :=
  if b then str "true" else str "false".

(** [a || b] on strings: the empty string is falsy. *)
Definition or_else (a b : jsstring) : jsstring :=
  match a with [] => b | _ => a end.

Local Open Scope prog_scope.

(** The [switch] of [run] (the dispatcher): it selects on
    [operationType.toLowerCase()], logs, and leaves [result] and
    [metadata]. *)
Definition dispatch (inputText operationType : jsstring) : M (result * metadata) :=
  let selector := toLowerCase operationType in
  if Text.eqb selector (str "analyze") then
    let result := analyzeText inputText in
    emit (info (utf16 [128202%N] ++ str " Analysis Results:")) ;;
    emit (info (str "   Characters: " ++ of_nat (charCount result))) ;;
    emit (info (str "   Words: " ++ of_nat (wordCount result))) ;;
    emit (info (str "   Lines: " ++ of_nat (lineCount result))) ;;
    emit (info (str "   Unique Words: " ++ of_nat (uniqueWords result))) ;;
    ret (Analysis result, {| type := str "analysis"; spread := Analysis result |})
  else if Text.eqb selector (str "transform") then
    let result := transformText inputText in
    emit (info (utf16 [128260%N] ++ str " Transformation Results:")) ;;
    emit (info (str "   Uppercase: " ++ uppercase result)) ;;
    emit (info (str "   Lowercase: " ++ lowercase result)) ;;
    emit (info (str "   Reversed: " ++ reversed result)) ;;
    ret (Transformation result,
         {| type := str "transformation"; spread := Transformation result |})
  else if Text.eqb selector (str "validate") then
    let result := validateText inputText in
    emit (info (utf16 [9989%N] ++ str " Validation Results:")) ;;
    emit (info (str "   Valid: " ++ Boolean_toString (isValid result))) ;;
    emit (info (str "   Issues: "
                ++ or_else (join (str ", ") (issues result)) (str "None"))) ;;
    ret (Validation result,
         {| type := str "validation"; spread := Validation result |})
  else
    emit (warning (str "Unknown operation type: " ++ operationType
                   ++ str ". Defaulting to 'analyze'.")) ;;
    let result := analyzeText inputText in
    ret (Analysis result, {| type := str "analysis"; spread := Analysis result |}).

(** [core.getInput(name, { required })]: the value bound to the input (the
    empty string when there is none), refused when required and empty,
    trimmed otherwise. *)
Definition getInput (inputs : jsstring -> option jsstring)
    (name : jsstring) (required : bool) : M jsstring :=
  let val := match inputs name with Some v => v | None => [] end in
  if (required && (length val =? 0))%bool
  then
    let description := str "Input required and not supplied: " ++ name in
    throw {| message := description; stack := Error_stack description |}
  else ret (trim val).

(** The line of 53 heavy dashes that opens a section of the log. *)
Definition info_rule : jsstring := repeat 9473%N 53.

(** [run] from the reading of the two inputs to the end of the switch, and
    the [catch] around them, which reports the failure, logs the stack of
    the error when there is one, and ends the action without a result. *)
Definition run_switch (inputs : jsstring -> option jsstring)
    (context : github_context) : M (option (result * metadata)) :=
  catch
    (inputText <- getInput inputs (str "input-text") true ;;
     operationType <- getInput inputs (str "operation-type") false ;;
     let operationType := or_else operationType (str "analyze") in
     emit (info info_rule) ;;
     emit (info (utf16 [128229%N] ++ str " Inputs received:")) ;;
     emit (info (str "   input-text: " ++ [34%N] ++ inputText ++ [34%N])) ;;
     emit (info (str "   operation-type: " ++ [34%N] ++ operationType ++ [34%N])) ;;
     emit (info []) ;;
     emit (info info_rule) ;;
     emit (info (utf16 [127760%N] ++ str " GitHub Context Information:")) ;;
     emit (info (str "   Repository: " ++ owner context ++ str "/" ++ repo context)) ;;
     emit (info (str "   Event: " ++ eventName context)) ;;
     emit (info (str "   Workflow: " ++ workflow context)) ;;
     emit (info (str "   Actor: " ++ actor context)) ;;
     emit (info (str "   SHA: " ++ firstn 7 (sha context))) ;;
     emit (info (str "   Ref: " ++ ref context)) ;;
     emit (info []) ;;
     emit (debug (str "Full context payload: " ++ payload context)) ;;
     emit (info info_rule) ;;
     emit (info (utf16 [128295%N] ++ str " Performing text analysis...")) ;;
     emit (info []) ;;
     r <- dispatch inputText operationType ;;
     ret (Some r))
    (fun error =>
       emit (setFailed (str "Action failed with error: " ++ message error)) ;;
       (if negb (length (stack error) =? 0)
        then emit (debug (str "Stack trace: " ++ stack error))
        else ret tt) ;;
       ret None).

End Helpers.

(** The context of a push to the main branch, for examples. *)
Definition push_context : github_context :=
  {| owner := str "octocat";
     repo := str "hello-world";
     eventName := str "push";
     workflow := str "CI";
     actor := str "octocat";
     sha := str "7fd1a60b01f91b314f59955a4e4d4e80d8edf11d";
     ref := str "refs/heads/main";
     payload := str "{}" |}.

(** The operation names the switch knows. *)
Definition known_operations : list jsstring :=
  [str "analyze"; str "transform"; str "validate"].

End Action.


(** ** The entrypoint script of the Docker action *)

Module Entrypoint.

Definition shstring := text.

(** What the script writes to standard output, command by command. *)
Inductive line : Type :=
| echo (argument : shstring)
| echo_e (argument : shstring).

(** The script stops early through [exit], or when a command fails
    ([set -e], and [set -o pipefail] for a pipeline); the status is kept. *)
Definition Sh : Type -> Type := prog line nat.

Definition GREEN : shstring := str "\033[0;32m".
Definition YELLOW : shstring := str "\033[1;33m".
Definition NC : shstring := str "\033[0m".

(** *** The commands of the [case] statement

    The image of the container is not part of the repository: its locale
    and the [rev] it installs are taken as given.  [is_character] tells
    which units of a text are characters of the locale (the others are
    bytes that [rev] cannot read as one); [iswprint] and [iswspace] tell
    which units the locale classifies as printable and as white space (the
    no-break spaces included, which [wc] takes for white space too); and
    [rev_unreadable] is what [rev] does with an input that holds a byte
    that is no character: the output it prints when it still ends with
    status 0, or the status it fails with. *)
Class Container := {
  is_character : N -> bool;
  iswprint : N -> bool;
  iswspace : N -> bool;
  rev_unreadable : shstring -> outcome nat shstring
}.

(** The blanks that every locale has: tab, newline, vertical tab, form
    feed, carriage return, and space. *)
Definition isspace (c : N) : bool := ((N.leb 9 c && N.leb c 13) || N.eqb c 32)%bool.

(** What holds of every locale: among the ASCII characters the printable
    ones are those from the space to the tilde, and the white space is the
    six blanks. *)
Class ContainerLaws (C : Container) : Prop := {
  iswprint_ascii : forall c,
    is_ascii c = true -> iswprint c = (N.leb 32 c && N.leb c 126)%bool;
  iswspace_ascii : forall c, is_ascii c = true -> iswspace c = isspace c
}.

(** The POSIX locale with the [rev] of util-linux, which stops with status
    1 at a byte that is no character. *)
Definition posix : Container :=
  {| is_character := is_ascii;
     iswprint := fun c => (N.leb 32 c && N.leb c 126)%bool;
     iswspace := isspace;
     rev_unreadable := fun _ => Thrown 1 |}.

(** Bash's builtin [echo] takes a first word made of [-] and one or more of
    [n], [e], [E] as options rather than as text. *)
Definition is_echo_option (w : shstring) : bool :=
  match w with
  | 45%N :: (_ :: _) as options =>
      forallb (fun c => (N.eqb c 110 || N.eqb c 101 || N.eqb c 69)%bool) options
  | _ => false
  end.

(** The output of [echo "$w"]. *)
Definition echo_output (w : shstring) : shstring :=
  if is_echo_option w
  then (if existsb (N.eqb 110) w then [] else [LF])
  else w ++ [LF].

(** Every line with its units in reverse order. *)
Definition rev_lines (input : shstring) : shstring :=
  join [LF] (map (@rev N) (split_on LF input)).

(** [tr '[:lower:]' '[:upper:]'] and its converse, in the POSIX locale (and
    in a UTF-8 locale, where [tr] works on the bytes): the ASCII letters
    change case. *)
Definition tr_lower_upper (input : shstring) : shstring := map ascii_to_upper input.
Definition tr_upper_lower (input : shstring) : shstring := map ascii_to_lower input.

(** [tr -d ' ']. *)
Definition tr_d_space (input : shstring) : shstring :=
  filter (fun c => negb (N.eqb c SPACE)) input.

Section Commands.
Context {C : Container}.

(** [rev] reads its input line by line as characters of the locale and
    prints every line with its characters in reverse order; an input with
    a unit that is neither a newline nor a character is left to
    [rev_unreadable]. *)
Definition readable (c : N) : bool := (N.eqb c LF || is_character c)%bool.

Definition rev_output (input : shstring) : outcome nat shstring :=
  if forallb readable input then Returned (rev_lines input)
  else rev_unreadable input.

(** [wc -w]: the six blanks end a word, and so does a printable character
    that the locale takes for white space; any other printable character
    is part of a word, which it begins unless one is open ([in_word]); a
    unit that is neither is passed over, inside a word as well as
    outside. *)
Fixpoint count_words_from (in_word : bool) (input : shstring) : nat :=
  match input with
  | [] => 0
  | c :: rest =>
      if isspace c then count_words_from false rest
      else if iswprint c then
        if iswspace c then count_words_from false rest
        else (if in_word then 0 else 1) + count_words_from true rest
      else count_words_from in_word rest
  end.

Definition wc_w (input : shstring) : shstring :=
  of_nat (count_words_from false input) ++ [LF].

End Commands.

(** [$( ... )]: the output of the command without its trailing newlines. *)
Fixpoint command_substitution (output : shstring) : shstring :=
  match output with
  | [] => []
  | c :: rest =>
      match command_substitution rest with
      | [] => if N.eqb c LF then [] else [c]
      | kept => c :: kept
      end
  end.

(** A pipeline in an assignment, under [set -e] and [pipefail]: when its
    command ends with a status other than 0 the script exits with that
    status. *)
Definition pipefail (output : outcome nat shstring) : Sh shstring :=
  match output with
  | Returned printed => ret printed
  | Thrown status => throw status
  end.

Section Script.
Context {C : Container}.
Variable COLOR_OUTPUT : shstring.

Local Open Scope prog_scope.

Definition print_colored (color message : shstring) : Sh unit :=
  if Text.eqb COLOR_OUTPUT (str "true")
  then emit (echo_e (color ++ message ++ NC))
  else emit (echo message).

(** The [case "$PROCESS_TYPE"] statement; it leaves [RESULT], or exits in
    the [reverse] branch when [rev] fails.  [tr] and [wc] end with status
    0 on every input. *)
Definition process (MESSAGE PROCESS_TYPE : shstring) : Sh shstring :=
  if Text.eqb PROCESS_TYPE (str "echo") then
    let RESULT := MESSAGE in
    print_colored GREEN ([128228%N] ++ str " Echo mode: Returning message as-is") ;;
    ret RESULT
  else if Text.eqb PROCESS_TYPE (str "reverse") then
    output <- pipefail (rev_output (echo_output MESSAGE)) ;;
    let RESULT := command_substitution output in
    print_colored GREEN ([128260%N] ++ str " Reverse mode: Reversed the message") ;;
    ret RESULT
  else if Text.eqb PROCESS_TYPE (str "count") then
    let CHAR_COUNT := of_nat (length MESSAGE) in
    let WORD_COUNT :=
      command_substitution (tr_d_space (wc_w (echo_output MESSAGE))) in
    let RESULT := str "Characters: " ++ CHAR_COUNT ++ str ", Words: " ++ WORD_COUNT in
    print_colored GREEN ([128202%N] ++ str " Count mode: Counted characters and words") ;;
    ret RESULT
  else if Text.eqb PROCESS_TYPE (str "uppercase") then
    let RESULT := command_substitution (tr_lower_upper (echo_output MESSAGE)) in
    print_colored GREEN
      ([11014%N; 65039%N] ++ str "  Uppercase mode: Converted to uppercase") ;;
    ret RESULT
  else if Text.eqb PROCESS_TYPE (str "lowercase") then
    let RESULT := command_substitution (tr_upper_lower (echo_output MESSAGE)) in
    print_colored GREEN
      ([11015%N; 65039%N] ++ str "  Lowercase mode: Converted to lowercase") ;;
    ret RESULT
  else
    print_colored YELLOW
      ([9888%N; 65039%N] ++ str "  Unknown process type '" ++ PROCESS_TYPE
       ++ str "', defaulting to echo") ;;
    let RESULT := MESSAGE in
    ret RESULT.

End Script.

(** [${N:-default}]: the argument, or the default when it is unset or empty. *)
Definition parameter_or (args : list shstring) (i : nat) (default : shstring) : shstring :=
  match nth_error args i with
  | Some ((_ :: _) as value) => value
  | _ => default
  end.

Local Open Scope prog_scope.

(** Reading the arguments, the check of [MESSAGE], and the [case]. *)
Definition entrypoint_case {C : Container} (args : list shstring) : Sh shstring :=
  let MESSAGE := parameter_or args 0 [] in
  let PROCESS_TYPE := parameter_or args 1 (str "echo") in
  let COLOR_OUTPUT := parameter_or args 2 (str "true") in
  (if length MESSAGE =? 0
   then emit (echo (str "::error::MESSAGE argument is required")) ;; throw 1
   else ret tt) ;;
  process COLOR_OUTPUT MESSAGE PROCESS_TYPE.

(** The process types the [case] statement names. *)
Definition known_process_types : list shstring :=
  [str "echo"; str "reverse"; str "count"; str "uppercase"; str "lowercase"].

(** *** Setting the outputs *)

Definition CYAN : shstring := str "\033[0;36m".
Definition BOLD : shstring := str "\033[1m".
Definition DQUOTE : N := 34.

(** What the container gives the script: the raw output of the commands it
    substitutes ([date], the pipeline on [/etc/os-release], the first line
    of [bash --version], [pwd]), which are taken to succeed, and the
    variable [GITHUB_OUTPUT] (empty when unset). *)
Record environment : Type := {
  date_output : shstring;
  os_release_output : shstring;
  bash_version_output : shstring;
  pwd_output : shstring;
  GITHUB_OUTPUT : shstring
}.

(** Besides standard output the script appends to the file of outputs. *)
Inductive effect : Type :=
| stdout (printed : line)
| append_to (file content : shstring).

Definition Script : Type -> Type := prog effect nat.

(** A command of the first part, run where both effects are recorded. *)
Definition to_stdout {A} (command : Sh A) : Script A :=
  fun log =>
    let (status, lines) := command [] in
    (status, log ++ map stdout lines).

(** A line of the here-document: two spaces, the quoted name, the quoted
    value, and a comma unless it is the last. *)
Definition heredoc_line (name value : shstring) (last_line : bool) : shstring :=
  str "  " ++ [DQUOTE] ++ name ++ [DQUOTE] ++ str ": "
  ++ [DQUOTE] ++ value ++ [DQUOTE] ++ (if last_line then [] else str ",") ++ [LF].

Definition TIMESTAMP (env : environment) : shstring :=
  command_substitution (date_output env).

Definition CONTAINER_INFO (env : environment) (PROCESS_TYPE : shstring) : shstring :=
  command_substitution
    (str "{" ++ [LF]
     ++ heredoc_line (str "os") (command_substitution (os_release_output env)) false
     ++ heredoc_line (str "shell") (command_substitution (bash_version_output env)) false
     ++ heredoc_line (str "process_type") PROCESS_TYPE false
     ++ heredoc_line (str "pwd") (command_substitution (pwd_output env)) true
     ++ str "}" ++ [LF]).

Definition rule : shstring := repeat 9473%N 53.

Local Open Scope prog_scope.

(** From [TIMESTAMP=...] to the end of the [if] on [GITHUB_OUTPUT]. *)
Definition set_outputs (env : environment)
    (COLOR_OUTPUT PROCESS_TYPE RESULT : shstring) : Script unit :=
  to_stdout (print_colored COLOR_OUTPUT CYAN rule) ;;
  to_stdout (print_colored COLOR_OUTPUT (CYAN ++ BOLD)
               ([128228%N] ++ str " Setting Outputs:")) ;;
  to_stdout (print_colored COLOR_OUTPUT CYAN rule) ;;
  emit (stdout (echo [])) ;;
  (if negb (length (GITHUB_OUTPUT env) =? 0) then
     emit (append_to (GITHUB_OUTPUT env) (echo_output (str "result=" ++ RESULT))) ;;
     emit (append_to (GITHUB_OUTPUT env)
             (echo_output (str "timestamp=" ++ TIMESTAMP env))) ;;
     emit (append_to (GITHUB_OUTPUT env)
             (echo_output (str "container-info=" ++ CONTAINER_INFO env PROCESS_TYPE))) ;;
     to_stdout (print_colored COLOR_OUTPUT GREEN ([32; 32; 32; 10003]%N ++ str " result")) ;;
     to_stdout (print_colored COLOR_OUTPUT GREEN ([32; 32; 32; 10003]%N ++ str " timestamp")) ;;
     to_stdout (print_colored COLOR_OUTPUT GREEN
                  ([32; 32; 32; 10003]%N ++ str " container-info"))
   else
     emit (stdout (echo ([9888%N; 65039%N]
                         ++ str "  GITHUB_OUTPUT not set (running outside GitHub Actions)"))) ;;
     emit (stdout (echo (str "Outputs would be:"))) ;;
     emit (stdout (echo (str "   result=" ++ RESULT))) ;;
     emit (stdout (echo (str "   timestamp=" ++ TIMESTAMP env))) ;;
     emit (stdout (echo (str "   container-info=" ++ CONTAINER_INFO env PROCESS_TYPE)))) ;;
  emit (stdout (echo [])).

(** The appends among the effects, in order. *)
Fixpoint appended (effects : list effect) : list (shstring * shstring) :=
  match effects with
  | [] => []
  | append_to file content :: rest => (file, content) :: appended rest
  | stdout _ :: rest => appended rest
  end.

End Entrypoint.


(** ** The specification's own words, for comparison with the code *)

Module Spec.

(** The words that [analyzeText] keeps: the non-empty ones. *)
Definition nonempty (word : jsstring) : bool := 0 <? length word.

(** The whitespace-delimited non-empty words of a text: [tokenized s ws]
    holds when [ws] lists, in order, the maximal runs of [s] that contain no
    whitespace. *)
Inductive tokenized : jsstring -> list jsstring -> Prop :=
| tokenized_blank : forall s,
    forallb is_whitespace s = true -> tokenized s []
| tokenized_word : forall gap w rest ws,
    forallb is_whitespace gap = true ->
    w <> [] ->
    existsb is_whitespace w = false ->
    (rest = [] \/ exists c rest', rest = c :: rest' /\ is_whitespace c = true) ->
    tokenized rest ws ->
    tokenized (gap ++ w ++ rest) (w :: ws).

(** The mean [total / count] rounded to two decimals, in hundredths, as
    the two usual rules for a value half way between two hundredths give
    it: the upper neighbour, or the even one. *)
Definition round_half_up (total count : nat) : N :=
  N.of_nat ((200 * total + count) / (2 * count)).

Definition round_half_even (total count : nat) : N :=
  let q := (100 * total) / count in
  let r := (100 * total) mod count in
  N.of_nat (if 2 * r <? count then q
            else if count <? 2 * r then q + 1
            else if Nat.even q then q else q + 1).

(** [n] hundredths are a nearest neighbour of the mean: they differ from
    it by half a hundredth at most. *)
Definition nearest_hundredths (total count : nat) (n : N) : Prop :=
  (2 * Z.abs (Z.of_N n * Z.of_nat count - 100 * Z.of_nat total) <= Z.of_nat count)%Z.

Section TitleCase.
Context {CM : CaseMapping}.

(** A token with its first character capitalized and the rest lowercased;
    the first character is the first code point of the token, which takes
    two code units when it is outside the Basic Multilingual Plane. *)
Definition title_token (token : jsstring) : jsstring :=
  match token with
  | [] => []
  | hi :: others =>
      match others with
      | lo :: rest =>
          if (is_high_surrogate hi && is_low_surrogate lo)%bool
          then toUpperCase [hi; lo] ++ toLowerCase rest
          else toUpperCase [hi] ++ toLowerCase others
      | [] => toUpperCase [hi] ++ toLowerCase []
      end
  end.

(** The text cut at every whitespace character: the leading token, then
    each whitespace character with the token that follows it. *)
Fixpoint cut_at_whitespace (s : jsstring) : jsstring * list (N * jsstring) :=
  match s with
  | [] => ([], [])
  | c :: s' =>
      let (token, others) := cut_at_whitespace s' in
      if is_whitespace c then ([], (c, token) :: others)
      else (c :: token, others)
  end.

(** Title case as the specification words it: every whitespace-delimited
    token has its first character capitalized and its rest lowercased; the
    whitespace stays as it is. *)
Definition title_case (s : jsstring) : jsstring :=
  let (token, others) := cut_at_whitespace s in
  title_token token
  ++ flat_map (fun p : N * jsstring => fst p :: title_token (snd p)) others.

End TitleCase.

End Spec.

Import Action Entrypoint.

(** ** Lemmas on texts *)

Lemma text_eqb_eq (a b : text) : Text.eqb a b = true <-> a = b.
Proof.
  revert b; induction a as [|x a IH]; intros [|y b]; simpl; split; intro H;
    try reflexivity; try discriminate.
  - apply andb_true_iff in H as [Hx Hab].
    apply N.eqb_eq in Hx. apply IH in Hab. congruence.
  - injection H as -> ->. apply andb_true_iff; split.
    + apply N.eqb_refl.
    + apply IH; reflexivity.
Qed.

Lemma text_eqb_refl (a : text) : Text.eqb a a = true.
Proof. apply text_eqb_eq; reflexivity. Qed.

Lemma text_eqb_neq (a b : text) : Text.eqb a b = false <-> a <> b.
Proof.
  split; intro H.
  - intro E. apply text_eqb_eq in E. congruence.
  - destruct (Text.eqb a b) eqn:E; [|reflexivity].
    apply text_eqb_eq in E. contradiction.
Qed.

Lemma ascii_to_lower_idem (u : N) :
  ascii_to_lower (ascii_to_lower u) = ascii_to_lower u.
Proof.
  unfold ascii_to_lower.
  destruct (ascii_upper u) eqn:E; [|rewrite E; reflexivity].
  unfold ascii_upper in *.
  apply andb_true_iff in E as [E1 E2].
  apply N.leb_le in E1, E2.
  replace (N.leb (u + 32) 90) with false; [rewrite andb_false_r; reflexivity|].
  symmetry. apply N.leb_gt. lia.
Qed.

(** The ASCII case conversion satisfies the laws asked of the built-ins. *)
Lemma ascii_case_laws : CaseMappingLaws ascii_case.
Proof.
  split; simpl; intros s; try reflexivity.
  rewrite map_map. apply map_ext. apply ascii_to_lower_idem.
Qed.

Lemma upper_with_deseret_ascii (s : jsstring) :
  forallb is_ascii s = true -> upper_with_deseret s = map ascii_to_upper s.
Proof.
  induction s as [|hi rest IH]; [reflexivity|]. intros H.
  cbn [forallb] in H. apply andb_true_iff in H as [Hhi Hrest].
  specialize (IH Hrest).
  change (upper_with_deseret (hi :: rest))
    with (match rest with
          | lo :: rest' =>
              if (N.eqb hi 55297 && N.eqb lo 56360)%bool
              then 55297%N :: 56320%N :: upper_with_deseret rest'
              else ascii_to_upper hi :: upper_with_deseret rest
          | [] => [ascii_to_upper hi]
          end).
  destruct rest as [|lo rest']; [reflexivity|].
  assert (E : N.eqb hi 55297 = false).
  { apply N.eqb_neq. unfold is_ascii in Hhi. apply N.ltb_lt in Hhi. lia. }
  rewrite E. cbn [andb]. now rewrite IH.
Qed.

(** So does the conversion that knows the Deseret letter. *)
Lemma deseret_case_laws : CaseMappingLaws deseret_case.
Proof.
  split; cbn [toLowerCase toUpperCase deseret_case]; intros s.
  - reflexivity.
  - apply upper_with_deseret_ascii.
  - rewrite map_map. apply map_ext. apply ascii_to_lower_idem.
Qed.

Section CaseFacts.
Context {CM : CaseMapping} (laws : CaseMappingLaws CM).

Lemma toLowerCase_nil : toLowerCase [] = [].
Proof. exact (toLowerCase_ascii [] eq_refl). Qed.

Lemma toUpperCase_nil : toUpperCase [] = [].
Proof. exact (toUpperCase_ascii [] eq_refl). Qed.

Lemma toLowerCase_known (name : jsstring) :
  In name known_operations -> toLowerCase name = name.
Proof.
  intros [<-|[<-|[<-|[]]]]; rewrite toLowerCase_ascii; reflexivity.
Qed.

End CaseFacts.

(** *** Splitting and joining *)

Lemma last_app_cons {A} (l : list A) (x : A) (l' : list A) (d : A) :
  last (l ++ x :: l') d = last (x :: l') d.
Proof.
  induction l as [|y l IH]; [reflexivity|].
  simpl app. rewrite <- IH. simpl. destruct (l ++ x :: l') eqn:E; [|reflexivity].
  destruct l; discriminate.
Qed.

Lemma last_map {A B} (f : A -> B) (l : list A) (d : A) :
  last (map f l) (f d) = f (last l d).
Proof.
  induction l as [|x l IH]; [reflexivity|].
  destruct l as [|y l]; [reflexivity|]. exact IH.
Qed.

Lemma last_in {A} (l : list A) (d : A) : l <> [] -> In (last l d) l.
Proof.
  intros Hne. destruct (exists_last Hne) as (l' & a & ->).
  rewrite last_last. apply in_or_app; right; now left.
Qed.

Section SplitJoin.
Variable sep : N.

Lemma split_on_not_nil (s : text) : split_on sep s <> [].
Proof.
  destruct s as [|c s]; simpl; [discriminate|].
  destruct (N.eqb c sep); [discriminate|].
  destruct (split_on sep s); discriminate.
Qed.

Lemma join_cons (glue p : text) (rest : list text) :
  rest <> [] -> join glue (p :: rest) = p ++ glue ++ join glue rest.
Proof. destruct rest; [contradiction|reflexivity]. Qed.

Lemma join_split_on (s : text) : join [sep] (split_on sep s) = s.
Proof.
  induction s as [|c s IH]; simpl; [reflexivity|].
  pose proof (split_on_not_nil s) as Hne.
  destruct (N.eqb_spec c sep) as [->|Hc].
  - rewrite join_cons by assumption. simpl. now rewrite IH.
  - destruct (split_on sep s) as [|p rest]; [contradiction|].
    destruct rest as [|q rest].
    + simpl in *. now rewrite IH.
    + rewrite join_cons by discriminate.
      rewrite join_cons in IH by discriminate.
      now rewrite <- IH.
Qed.

Lemma split_on_pieces (s : text) :
  Forall (fun p => ~ In sep p) (split_on sep s).
Proof.
  induction s as [|c s IH]; simpl.
  - constructor; [intros []|constructor].
  - destruct (N.eqb_spec c sep) as [->|Hc].
    + constructor; [intros []|assumption].
    + destruct (split_on sep s) as [|p rest].
      * constructor; [|constructor]. intros [E|[]]. congruence.
      * inversion IH as [|? ? Hp Hrest]; subst.
        constructor; [|assumption].
        intros [E|Hin]; [congruence|contradiction].
Qed.

Lemma split_on_free (p : text) : ~ In sep p -> split_on sep p = [p].
Proof.
  induction p as [|c p IH]; simpl; intro H; [reflexivity|].
  destruct (N.eqb_spec c sep) as [->|Hc].
  - exfalso. apply H. now left.
  - rewrite IH; [reflexivity|]. intro Hin. apply H. now right.
Qed.

Lemma split_on_app (p t : text) :
  ~ In sep p -> split_on sep (p ++ [sep] ++ t) = p :: split_on sep t.
Proof.
  change (p ++ [sep] ++ t) with (p ++ sep :: t).
  induction p as [|c p IH]; simpl; intro H.
  - now rewrite N.eqb_refl.
  - destruct (N.eqb_spec c sep) as [->|Hc].
    + exfalso. apply H. now left.
    + rewrite IH; [reflexivity|]. intro Hin. apply H. now right.
Qed.

Lemma split_on_join (pieces : list text) :
  pieces <> [] -> Forall (fun p => ~ In sep p) pieces ->
  split_on sep (join [sep] pieces) = pieces.
Proof.
  induction pieces as [|p rest IH]; intros Hne Hfree; [contradiction|].
  inversion Hfree as [|? ? Hp Hrest]; subst.
  destruct rest as [|q rest].
  - simpl. now apply split_on_free.
  - rewrite join_cons by discriminate.
    rewrite split_on_app by assumption.
    rewrite IH; [reflexivity|discriminate|assumption].
Qed.

Lemma split_on_snoc (s : text) :
  split_on sep (s ++ [sep]) = split_on sep s ++ [[]].
Proof.
  induction s as [|c s IH]; simpl.
  - now rewrite N.eqb_refl.
  - rewrite IH. destruct (N.eqb c sep); [reflexivity|].
    pose proof (split_on_not_nil s) as Hne.
    destruct (split_on sep s); [contradiction|reflexivity].
Qed.

Lemma join_snoc_nil (pieces : list text) :
  pieces <> [] -> join [sep] (pieces ++ [[]]) = join [sep] pieces ++ [sep].
Proof.
  induction pieces as [|p rest IH]; intros Hne; [contradiction|].
  destruct rest as [|q rest].
  - reflexivity.
  - change ((p :: q :: rest) ++ [[]]) with (p :: ((q :: rest) ++ [[]])).
    rewrite join_cons by (simpl; discriminate).
    rewrite IH by discriminate.
    rewrite (@join_cons [sep] p (q :: rest)) by discriminate.
    now rewrite <- !app_assoc.
Qed.

Lemma split_on_two (s : text) :
  In sep s -> exists p q rest, split_on sep s = p :: q :: rest.
Proof.
  induction s as [|c s IH]; simpl; [intros []|]. intros Hin.
  pose proof (split_on_not_nil s) as Hne.
  destruct (N.eqb_spec c sep) as [->|Hc].
  - destruct (split_on sep s) as [|q rest]; [contradiction|].
    now exists [], q, rest.
  - destruct Hin as [E|Hin]; [congruence|].
    destruct (IH Hin) as (p & q & rest & ->).
    now exists (c :: p), q, rest.
Qed.

Lemma join_two (p q : text) (rest : list text) :
  In sep (join [sep] (p :: q :: rest)).
Proof.
  rewrite join_cons by discriminate.
  apply in_or_app; right. now left.
Qed.

(** The joined text ends with the separator exactly when there are two
    pieces at least and the last one is empty. *)
Lemma last_join (d : N) (pieces : list text) :
  d <> sep ->
  Forall (fun p => ~ In sep p) pieces ->
  last (join [sep] pieces) d = sep <->
  last pieces [d] = [] /\ 2 <= length pieces.
Proof.
  intros Hd. induction pieces as [|p rest IH]; intros Hfree.
  - simpl. split; [congruence|intros [H _]; discriminate].
  - inversion Hfree as [|? ? Hp Hrest]; subst.
    destruct rest as [|q rest].
    + simpl. split; [|intros [_ H]; lia].
      intros E. exfalso. destruct p as [|c p]; [simpl in E; congruence|].
      apply Hp. rewrite <- E. apply last_in. discriminate.
    + rewrite join_cons by discriminate.
      specialize (IH Hrest).
      change (last (p :: q :: rest) [d]) with (last (q :: rest) [d]).
      change (p ++ [sep] ++ join [sep] (q :: rest))
        with (p ++ sep :: join [sep] (q :: rest)).
      rewrite last_app_cons.
      destruct (join [sep] (q :: rest)) as [|j js] eqn:EJ.
      * simpl. split; [intros _|reflexivity].
        destruct rest as [|r rest].
        -- simpl in EJ. subst q. split; [reflexivity|simpl; lia].
        -- exfalso. pose proof (join_two q r rest) as Hin.
           rewrite EJ in Hin. destruct Hin.
      * change (last (sep :: j :: js) d) with (last (j :: js) d).
        rewrite IH. split; intros [H1 H2]; (split; [assumption|]).
        -- simpl; lia.
        -- destruct rest as [|r rest]; [|simpl; lia].
           simpl in H1, EJ. congruence.
Qed.

End SplitJoin.

(** *** The shell commands *)

Lemma command_substitution_snoc (output : shstring) :
  command_substitution (output ++ [LF]) = command_substitution output.
Proof.
  induction output as [|c output IH]; [reflexivity|].
  simpl. now rewrite IH.
Qed.

Lemma command_substitution_id (output : shstring) :
  last output 0%N <> LF -> command_substitution output = output.
Proof.
  induction output as [|c output IH]; [reflexivity|]. intros Hlast.
  destruct output as [|c' output].
  - simpl in *. destruct (N.eqb_spec c LF); [contradiction|reflexivity].
  - change (last (c :: c' :: output) 0%N) with (last (c' :: output) 0%N) in Hlast.
    change (command_substitution (c :: c' :: output))
      with (match command_substitution (c' :: output) with
            | [] => if N.eqb c LF then [] else [c]
            | kept => c :: kept
            end).
    now rewrite IH.
Qed.

Lemma rev_lines_snoc (input : shstring) :
  rev_lines (input ++ [LF]) = rev_lines input ++ [LF].
Proof.
  unfold rev_lines. rewrite split_on_snoc, map_app. simpl map.
  apply join_snoc_nil.
  pose proof (split_on_not_nil LF input).
  destruct (split_on LF input); [contradiction|discriminate].
Qed.

Lemma rev_pieces_free (pieces : list shstring) :
  Forall (fun p => ~ In LF p) pieces ->
  Forall (fun p => ~ In LF p) (map (@rev N) pieces).
Proof.
  intros H. apply Forall_map. eapply Forall_impl; [|exact H].
  intros p Hp Hin. apply Hp. now apply in_rev.
Qed.

Lemma rev_lines_involutive (input : shstring) :
  rev_lines (rev_lines input) = input.
Proof.
  unfold rev_lines.
  pose proof (split_on_not_nil LF input) as Hne.
  rewrite split_on_join.
  - rewrite map_map.
    rewrite (map_ext _ (fun p => p)) by (intros; apply rev_involutive).
    rewrite map_id. apply join_split_on.
  - destruct (split_on LF input); [contradiction|discriminate].
  - apply rev_pieces_free, split_on_pieces.
Qed.

Lemma rev_lines_one_line (input : shstring) :
  ~ In LF input -> rev_lines input = rev input.
Proof.
  intros H. unfold rev_lines. now rewrite split_on_free.
Qed.

Lemma rev_lines_keeps_LF (input : shstring) :
  In LF input -> In LF (rev_lines input).
Proof.
  intros H. unfold rev_lines.
  destruct (split_on_two _ _ H) as (p & q & rest & ->).
  apply join_two.
Qed.

Lemma rev_lines_last (input : shstring) :
  last input 0%N <> LF -> last (rev_lines input) 0%N <> LF.
Proof.
  assert (H0 : 0%N <> LF) by discriminate.
  intros Hlast E. apply Hlast. unfold rev_lines in E.
  apply (last_join H0) in E; [|apply rev_pieces_free, split_on_pieces].
  destruct E as [Hempty Hlen]. rewrite length_map in Hlen.
  rewrite <- (join_split_on LF input) at 1.
  apply (last_join H0); [apply split_on_pieces|].
  split; [|assumption].
  change [0%N] with (rev [0%N]) in Hempty.
  rewrite last_map in Hempty.
  apply (f_equal (@rev N)) in Hempty.
  now rewrite rev_involutive in Hempty.
Qed.

Lemma forallb_rev {A} (f : A -> bool) (l : list A) :
  forallb f (rev l) = forallb f l.
Proof.
  induction l as [|x l IH]; [reflexivity|].
  simpl. rewrite forallb_app, IH. simpl. rewrite andb_true_r. apply andb_comm.
Qed.

(** Reversing the lines moves the units within their lines and neither
    adds nor removes one. *)
Lemma forallb_join_rev (f : N -> bool) (pieces : list shstring) :
  forallb f (join [LF] (map (@rev N) pieces)) = forallb f (join [LF] pieces).
Proof.
  induction pieces as [|p pieces IH]; [reflexivity|].
  destruct pieces as [|q pieces]; [apply forallb_rev|].
  cbn [map] in *.
  change (join [LF] (rev p :: rev q :: map (@rev N) pieces))
    with (rev p ++ [LF] ++ join [LF] (rev q :: map (@rev N) pieces)).
  change (join [LF] (p :: q :: pieces)) with (p ++ [LF] ++ join [LF] (q :: pieces)).
  rewrite !forallb_app, forallb_rev. now rewrite IH.
Qed.

Lemma forallb_rev_lines (f : N -> bool) (input : shstring) :
  forallb f (rev_lines input) = forallb f input.
Proof.
  unfold rev_lines. now rewrite forallb_join_rev, join_split_on.
Qed.

Lemma existsb_negb_forallb {A} (f : A -> bool) (l : list A) :
  existsb f l = false -> forallb (fun x => negb (f x)) l = true.
Proof.
  induction l as [|x l IH]; [reflexivity|]. simpl. intros H.
  apply orb_false_iff in H as [-> Hl]. now rewrite IH.
Qed.

Lemma echo_option_one_line (w : shstring) :
  is_echo_option w = true -> ~ In LF w.
Proof.
  destruct w as [|c w]; [discriminate|]. simpl.
  destruct c as [|c]; [discriminate|].
  do 6 (destruct c as [c|c|]; try discriminate).
  destruct w as [|c' w]; [discriminate|].
  intros H [E|Hin]; [discriminate|].
  rewrite forallb_forall in H. specialize (H _ Hin).
  discriminate.
Qed.

Lemma echo_output_text (w : shstring) :
  is_echo_option w = false -> echo_output w = w ++ [LF].
Proof. unfold echo_output. now intros ->. Qed.

(** What the [reverse] branch leaves in [RESULT] for a message that [echo]
    prints as it is and that does not end in a newline. *)
Lemma reverse_pipeline (MESSAGE : shstring) :
  is_echo_option MESSAGE = false ->
  last MESSAGE 0%N <> LF ->
  command_substitution (rev_lines (echo_output MESSAGE)) = rev_lines MESSAGE.
Proof.
  intros Hopt Hlast.
  rewrite echo_output_text by assumption.
  rewrite rev_lines_snoc, command_substitution_snoc.
  apply command_substitution_id. now apply rev_lines_last.
Qed.

(** *** Sets of strings *)

Lemma Set_add_spec (x : jsstring) (s : list jsstring) :
  NoDup s ->
  NoDup (Set_add x s) /\ forall y, In y (Set_add x s) <-> In y s \/ y = x.
Proof.
  intros Hs. unfold Set_add.
  destruct (existsb (Text.eqb x) s) eqn:E.
  - split; [assumption|]. intros y. split; [now left|].
    intros [H| ->]; [assumption|].
    apply existsb_exists in E as (z & Hz & Ez).
    apply text_eqb_eq in Ez. now subst.
  - split.
    + apply NoDup_app; [assumption|constructor; [intros []|constructor]|].
      intros y Hy [<-|[]].
      assert (existsb (Text.eqb x) s = true); [|congruence].
      apply existsb_exists. exists x. split; [assumption|apply text_eqb_refl].
    + intros y. rewrite in_app_iff. simpl. intuition congruence.
Qed.

Lemma Set_of_fold (xs acc : list jsstring) :
  NoDup acc ->
  NoDup (fold_left (fun s x => Set_add x s) xs acc)
  /\ forall y, In y (fold_left (fun s x => Set_add x s) xs acc)
               <-> In y acc \/ In y xs.
Proof.
  revert acc. induction xs as [|x xs IH]; intros acc Hacc; simpl.
  - split; [assumption|]. intros y. tauto.
  - destruct (Set_add_spec x Hacc) as [Hnd Hin].
    destruct (IH _ Hnd) as [Hnd' Hin'].
    split; [assumption|]. intros y. rewrite Hin', Hin.
    intuition congruence.
Qed.

Lemma Set_of_spec (xs : list jsstring) :
  NoDup (Set_of xs) /\ forall y, In y (Set_of xs) <-> In y xs.
Proof.
  destruct (@Set_of_fold xs [] (NoDup_nil _)) as [Hnd Hin].
  split; [exact Hnd|]. intros y. rewrite (Hin y). simpl. tauto.
Qed.

(** *** Words *)

Lemma split_whitespace_from_not_nil (in_run : bool) (s : jsstring) :
  split_whitespace_from in_run s <> [].
Proof.
  revert in_run. induction s as [|c s IH]; intros in_run; simpl; [discriminate|].
  destruct (is_whitespace c).
  - destruct in_run; [apply IH|discriminate].
  - destruct (split_whitespace_from false s); discriminate.
Qed.

Lemma tokenized_word_eq (s gap w rest : jsstring) (ws : list jsstring) :
  s = gap ++ w ++ rest ->
  forallb is_whitespace gap = true ->
  w <> [] ->
  existsb is_whitespace w = false ->
  (rest = [] \/ exists c rest', rest = c :: rest' /\ is_whitespace c = true) ->
  Spec.tokenized rest ws ->
  Spec.tokenized s (w :: ws).
Proof. intros ->. apply Spec.tokenized_word. Qed.

Lemma tokenized_cons_space (c : N) (s : jsstring) (ws : list jsstring) :
  is_whitespace c = true -> Spec.tokenized s ws -> Spec.tokenized (c :: s) ws.
Proof.
  intros Hc H. inversion H as [s' Hall|gap w rest ws' Hgap Hw Hfree Hrest Hws]; subst.
  - apply Spec.tokenized_blank. simpl. now rewrite Hc.
  - apply (@tokenized_word_eq _ (c :: gap) w rest ws'); try assumption.
    + reflexivity.
    + simpl. now rewrite Hc.
Qed.

Lemma tokenized_split (s : jsstring) :
  (forall pre piece rest,
      existsb is_whitespace pre = false ->
      split_whitespace_from false s = piece :: rest ->
      Spec.tokenized (pre ++ s) (filter Spec.nonempty ((pre ++ piece) :: rest)))
  /\ Spec.tokenized s (filter Spec.nonempty (split_whitespace_from true s)).
Proof.
  induction s as [|c s [IHword IHgap]].
  - split.
    + intros pre piece rest Hpre E. injection E as <- <-.
      rewrite !app_nil_r. destruct pre as [|p pre].
      * apply Spec.tokenized_blank. reflexivity.
      * apply (@tokenized_word_eq _ [] (p :: pre) [] []); try assumption.
        -- simpl. now rewrite app_nil_r.
        -- reflexivity.
        -- discriminate.
        -- now left.
        -- apply Spec.tokenized_blank. reflexivity.
    + apply Spec.tokenized_blank. reflexivity.
  - simpl. destruct (is_whitespace c) eqn:Hc.
    + split.
      * intros pre piece rest Hpre E. injection E as <- <-.
        rewrite app_nil_r. destruct pre as [|p pre].
        -- apply tokenized_cons_space; assumption.
        -- change (filter Spec.nonempty ((p :: pre) :: split_whitespace_from true s))
             with ((p :: pre) :: filter Spec.nonempty (split_whitespace_from true s)).
           apply (@tokenized_word_eq _ [] (p :: pre) (c :: s)); try assumption.
           ++ reflexivity.
           ++ reflexivity.
           ++ discriminate.
           ++ right. now exists c, s.
           ++ apply tokenized_cons_space; assumption.
      * apply tokenized_cons_space; assumption.
    + pose proof (split_whitespace_from_not_nil false s) as Hne.
      destruct (split_whitespace_from false s) as [|piece' rest']; [contradiction|].
      split.
      * intros pre piece rest Hpre E. injection E as <- <-.
        specialize (IHword (pre ++ [c]) piece' rest').
        rewrite <- !app_assoc in IHword. apply IHword; [|reflexivity].
        rewrite existsb_app, Hpre. simpl. now rewrite Hc.
      * apply (IHword [c] piece' rest'); [|reflexivity].
        simpl. now rewrite Hc.
Qed.

(** The words [analyzeText] counts are the whitespace-delimited words. *)
Lemma words_tokenized (text : jsstring) :
  Spec.tokenized text (filter Spec.nonempty (split_whitespace text)).
Proof.
  pose proof (split_whitespace_from_not_nil false text) as Hne.
  unfold split_whitespace.
  destruct (split_whitespace_from false text) as [|piece rest] eqn:Es;
    [contradiction|].
  destruct (tokenized_split text) as [H _].
  exact (H [] piece rest eq_refl Es).
Qed.

(** *** Title case *)

Lemma join_flat_map (glue : N) (x : text) (xs : list text) :
  join [glue] (x :: xs) = x ++ flat_map (fun y => glue :: y) xs.
Proof.
  revert x. induction xs as [|y ys IH]; intros x.
  - simpl. now rewrite app_nil_r.
  - rewrite join_cons by discriminate. rewrite IH. reflexivity.
Qed.

Lemma cut_at_whitespace_spaces (s : jsstring) :
  (forall u, In u s -> is_whitespace u = true -> u = SPACE) ->
  exists piece rest,
    split_on SPACE s = piece :: rest
    /\ Spec.cut_at_whitespace s = (piece, map (fun p => (SPACE, p)) rest).
Proof.
  induction s as [|c s IH]; intros Hws.
  - now exists [], [].
  - destruct IH as (piece & rest & Esplit & Ecut).
    { intros u Hu. apply Hws. now right. }
    simpl. rewrite Esplit, Ecut.
    destruct (N.eqb_spec c SPACE) as [->|Hc].
    + now exists [], (piece :: rest).
    + destruct (is_whitespace c) eqn:Ec.
      * exfalso. apply Hc. apply Hws; [now left|assumption].
      * now exists (c :: piece), rest.
Qed.

Section TitleFacts.
Context {CM : CaseMapping} (laws : CaseMappingLaws CM).

(** What [capitalized] does with a piece: the first code unit in upper
    case, the others in lower case. *)
Lemma title_code_unit (word : jsstring) :
  toUpperCase (charAt word 0) ++ toLowerCase (slice word 1)
  = match word with
    | [] => []
    | first :: others => toUpperCase [first] ++ toLowerCase others
    end.
Proof.
  destruct word as [|c word]; [|reflexivity].
  unfold charAt, slice. simpl.
  now rewrite (toUpperCase_nil laws), (toLowerCase_nil laws).
Qed.

(** On a piece without surrogates the first code unit is the first
    character. *)
Lemma title_token_code (word : jsstring) :
  forallb (fun u => negb (is_surrogate u)) word = true ->
  toUpperCase (charAt word 0) ++ toLowerCase (slice word 1)
  = Spec.title_token word.
Proof.
  intros H. rewrite title_code_unit.
  destruct word as [|hi [|lo rest]]; try reflexivity.
  cbn [forallb] in H. apply andb_true_iff in H as [Hhi _].
  apply negb_true_iff in Hhi. unfold is_surrogate in Hhi.
  apply orb_false_iff in Hhi as [Hhigh _].
  unfold Spec.title_token. now rewrite Hhigh.
Qed.

End TitleFacts.

Lemma tokenized_run_unique (w w' rest rest' : jsstring) :
  existsb is_whitespace w = false ->
  existsb is_whitespace w' = false ->
  (rest = [] \/ exists c r, rest = c :: r /\ is_whitespace c = true) ->
  (rest' = [] \/ exists c r, rest' = c :: r /\ is_whitespace c = true) ->
  w ++ rest = w' ++ rest' -> w = w' /\ rest = rest'.
Proof.
  revert w'. induction w as [|c w IH]; intros [|c' w'] Hw Hw' Hr Hr' E; simpl in *.
  - now split.
  - exfalso. destruct Hr as [->|(d & r & -> & Hd)]; [discriminate|].
    injection E as -> _. now rewrite Hd in Hw'.
  - exfalso. destruct Hr' as [->|(d & r & -> & Hd)]; [discriminate|].
    injection E as -> _. now rewrite Hd in Hw.
  - injection E as -> E.
    apply orb_false_iff in Hw as [_ Hw], Hw' as [_ Hw'].
    destruct (IH w' Hw Hw' Hr Hr' E) as [-> ->]. now split.
Qed.

Lemma tokenized_cut_unique (gap w rest gap' w' rest' : jsstring) :
  forallb is_whitespace gap = true ->
  forallb is_whitespace gap' = true ->
  w <> [] -> w' <> [] ->
  existsb is_whitespace w = false ->
  existsb is_whitespace w' = false ->
  (rest = [] \/ exists c r, rest = c :: r /\ is_whitespace c = true) ->
  (rest' = [] \/ exists c r, rest' = c :: r /\ is_whitespace c = true) ->
  gap ++ w ++ rest = gap' ++ w' ++ rest' ->
  w = w' /\ rest = rest'.
Proof.
  revert gap'. induction gap as [|g gap IH]; intros [|g' gap'] Hg Hg' Hn Hn' Hw Hw' Hr Hr' E;
    simpl in *.
  - now apply tokenized_run_unique.
  - exfalso. destruct w as [|c w]; [contradiction|]. simpl in *.
    injection E as -> _. apply andb_true_iff in Hg' as [Hg' _].
    now rewrite Hg' in Hw.
  - exfalso. destruct w' as [|c w']; [contradiction|]. simpl in *.
    injection E as <- _. apply andb_true_iff in Hg as [Hg _].
    now rewrite Hg in Hw'.
  - injection E as _ E.
    apply andb_true_iff in Hg as [_ Hg], Hg' as [_ Hg'].
    now apply (IH gap').
Qed.

Lemma tokenized_blank_no_word (gap w rest : jsstring) :
  forallb is_whitespace (gap ++ w ++ rest) = true ->
  w <> [] -> existsb is_whitespace w = false -> False.
Proof.
  intros Hall Hn Hw. rewrite !forallb_app in Hall.
  apply andb_true_iff in Hall as [_ Hall].
  apply andb_true_iff in Hall as [Hall _].
  destruct w as [|c w]; [contradiction|]. simpl in *.
  apply andb_true_iff in Hall as [Hc _]. now rewrite Hc in Hw.
Qed.

(** A text has one list of whitespace-delimited words. *)
Lemma tokenized_unique (s : jsstring) (ws ws' : list jsstring) :
  Spec.tokenized s ws -> Spec.tokenized s ws' -> ws = ws'.
Proof.
  intros H. revert ws'.
  induction H as [s Hall|gap w rest ws Hgap Hn Hw Hrest Hws IH]; intros ws' H'.
  - inversion H' as [|gap' w' rest' ws1 Hgap' Hn' Hw' Hrest' Hws' E]; [reflexivity|].
    subst. exfalso. eapply tokenized_blank_no_word; eassumption.
  - inversion H' as [s' Hall E|gap' w' rest' ws1 Hgap' Hn' Hw' Hrest' Hws' E].
    + exfalso. eapply tokenized_blank_no_word; eassumption.
    + symmetry in E.
      destruct (@tokenized_cut_unique gap w rest gap' w' rest'
                  Hgap Hgap' Hn Hn' Hw Hw' Hrest Hrest' E)
        as [<- <-].
      subst ws'. f_equal. now apply IH.
Qed.

(** *** ASCII texts *)

Lemma split_on_forallb (P : N -> bool) (sep : N) (s : text) :
  forallb P s = true -> Forall (fun p => forallb P p = true) (split_on sep s).
Proof.
  induction s as [|c s IH]; simpl; intros H.
  - now repeat constructor.
  - apply andb_true_iff in H as [Hc Hs]. specialize (IH Hs).
    destruct (N.eqb c sep); [now constructor|].
    destruct (split_on sep s) as [|p rest].
    + repeat constructor. simpl. now rewrite Hc.
    + inversion IH; subst. constructor; [|assumption]. simpl. now rewrite Hc.
Qed.

Lemma split_whitespace_from_forallb (P : N -> bool) (in_run : bool) (s : jsstring) :
  forallb P s = true ->
  Forall (fun p => forallb P p = true) (split_whitespace_from in_run s).
Proof.
  revert in_run. induction s as [|c s IH]; simpl; intros in_run H.
  - now repeat constructor.
  - apply andb_true_iff in H as [Hc Hs].
    destruct (is_whitespace c).
    + destruct in_run; [now apply IH|]. constructor; [reflexivity|now apply IH].
    + specialize (IH false Hs).
      destruct (split_whitespace_from false s) as [|p rest].
      * repeat constructor. simpl. now rewrite Hc.
      * inversion IH; subst. constructor; [|assumption]. simpl. now rewrite Hc.
Qed.

Section AsciiAgreement.
Context {CM : CaseMapping} (laws : CaseMappingLaws CM).

(** On an ASCII text every case mapping that satisfies the laws gives what
    the ASCII one gives. *)
Lemma transformText_ascii (text : jsstring) :
  forallb is_ascii text = true ->
  @transformText CM text = @transformText ascii_case text.
Proof.
  intros H. unfold transformText.
  rewrite (toUpperCase_ascii _ H), (toLowerCase_ascii _ H).
  f_equal. f_equal. apply map_ext_in. intros word Hword.
  pose proof (split_on_forallb is_ascii SPACE text H) as Hall.
  rewrite Forall_forall in Hall. specialize (Hall _ Hword).
  destruct word as [|c word]; unfold charAt, slice; simpl nth_error; simpl skipn; cbv iota.
  - now rewrite (toUpperCase_nil laws), (toLowerCase_nil laws).
  - simpl in Hall. apply andb_true_iff in Hall as [Hc Hw].
    rewrite toUpperCase_ascii by (simpl; now rewrite Hc).
    now rewrite (toLowerCase_ascii _ Hw).
Qed.

Lemma analyzeText_ascii (text : jsstring) :
  forallb is_ascii text = true ->
  @analyzeText CM text = @analyzeText ascii_case text.
Proof.
  intros H. unfold analyzeText. f_equal. f_equal. f_equal.
  apply map_ext_in. intros word Hword.
  apply filter_In in Hword as [Hword _].
  pose proof (split_whitespace_from_forallb is_ascii false text H) as Hall.
  rewrite Forall_forall in Hall.
  now apply toLowerCase_ascii, Hall.
Qed.

End AsciiAgreement.

(** *** The switch and the case statement *)

Section DispatchFacts.
Context {CM : CaseMapping}.

Lemma dispatch_result (inputText operationType : jsstring) (log : list event) :
  fst (dispatch inputText operationType log)
  = Returned
      (if Text.eqb (toLowerCase operationType) (str "analyze") then
         (Analysis (analyzeText inputText),
          {| type := str "analysis"; spread := Analysis (analyzeText inputText) |})
       else if Text.eqb (toLowerCase operationType) (str "transform") then
         (Transformation (transformText inputText),
          {| type := str "transformation";
             spread := Transformation (transformText inputText) |})
       else if Text.eqb (toLowerCase operationType) (str "validate") then
         (Validation (validateText inputText),
          {| type := str "validation"; spread := Validation (validateText inputText) |})
       else
         (Analysis (analyzeText inputText),
          {| type := str "analysis"; spread := Analysis (analyzeText inputText) |})).
Proof.
  unfold dispatch.
  destruct (Text.eqb (toLowerCase operationType) (str "analyze")); [reflexivity|].
  destruct (Text.eqb (toLowerCase operationType) (str "transform")); [reflexivity|].
  destruct (Text.eqb (toLowerCase operationType) (str "validate")); reflexivity.
Qed.


Lemma unknown_selector (selector : jsstring) :
  ~ In selector known_operations ->
  Text.eqb selector (str "analyze") = false
  /\ Text.eqb selector (str "transform") = false
  /\ Text.eqb selector (str "validate") = false.
Proof.
  intros H. repeat split; apply text_eqb_neq; intros ->; apply H; simpl; tauto.
Qed.

Lemma dispatch_unknown (inputText operationType : jsstring) (log : list event) :
  ~ In (toLowerCase operationType) known_operations ->
  dispatch inputText operationType log
  = (Returned (Analysis (analyzeText inputText),
               {| type := str "analysis"; spread := Analysis (analyzeText inputText) |}),
     log ++ [warning (str "Unknown operation type: " ++ operationType
                      ++ str ". Defaulting to 'analyze'.")]).
Proof.
  intros H. destruct (unknown_selector H) as (Ha & Ht & Hv).
  unfold dispatch. rewrite Ha, Ht, Hv. reflexivity.
Qed.

Section DispatchKnown.
Context (laws : CaseMappingLaws CM).

Lemma dispatch_analyze (inputText : jsstring) (log : list event) :
  fst (dispatch inputText (str "analyze") log)
  = Returned (Analysis (analyzeText inputText),
              {| type := str "analysis";
                 spread := Analysis (analyzeText inputText) |}).
Proof.
  rewrite dispatch_result.
  now rewrite (toLowerCase_known laws) by (simpl; tauto).
Qed.

Lemma dispatch_transform (inputText : jsstring) (log : list event) :
  fst (dispatch inputText (str "transform") log)
  = Returned (Transformation (transformText inputText),
              {| type := str "transformation";
                 spread := Transformation (transformText inputText) |}).
Proof.
  rewrite dispatch_result.
  now rewrite (toLowerCase_known laws) by (simpl; tauto).
Qed.

Lemma dispatch_validate (inputText : jsstring) (log : list event) :
  fst (dispatch inputText (str "validate") log)
  = Returned (Validation (validateText inputText),
              {| type := str "validation";
                 spread := Validation (validateText inputText) |}).
Proof.
  rewrite dispatch_result.
  now rewrite (toLowerCase_known laws) by (simpl; tauto).
Qed.

End DispatchKnown.

End DispatchFacts.

Lemma print_colored_returns (COLOR_OUTPUT color message : shstring) (log : list line) :
  exists printed,
    print_colored COLOR_OUTPUT color message log = (Returned tt, log ++ [printed]).
Proof.
  unfold print_colored.
  destruct (Text.eqb COLOR_OUTPUT (str "true")); eexists; reflexivity.
Qed.

(** The line that [print_colored] prints. *)
Lemma print_colored_line (COLOR_OUTPUT color message : shstring) (log : list line) :
  print_colored COLOR_OUTPUT color message log
  = (Returned tt,
     log ++ [if Text.eqb COLOR_OUTPUT (str "true")
             then echo_e (color ++ message ++ NC) else echo message]).
Proof.
  unfold print_colored.
  destruct (Text.eqb COLOR_OUTPUT (str "true")); reflexivity.
Qed.

Lemma unknown_process_type (PROCESS_TYPE : shstring) :
  ~ In PROCESS_TYPE known_process_types ->
  Text.eqb PROCESS_TYPE (str "echo") = false
  /\ Text.eqb PROCESS_TYPE (str "reverse") = false
  /\ Text.eqb PROCESS_TYPE (str "count") = false
  /\ Text.eqb PROCESS_TYPE (str "uppercase") = false
  /\ Text.eqb PROCESS_TYPE (str "lowercase") = false.
Proof.
  intros H. repeat split; apply text_eqb_neq; intros ->; apply H; simpl; tauto.
Qed.

Section CaseStatement.
Context {C : Container}.


Lemma process_unknown (COLOR_OUTPUT MESSAGE PROCESS_TYPE : shstring) (log : list line) :
  ~ In PROCESS_TYPE known_process_types ->
  process COLOR_OUTPUT MESSAGE PROCESS_TYPE log
  = (Returned MESSAGE,
     log ++ [let notice :=
               [9888%N; 65039%N] ++ str "  Unknown process type '" ++ PROCESS_TYPE
               ++ str "', defaulting to echo" in
             if Text.eqb COLOR_OUTPUT (str "true")
             then echo_e (YELLOW ++ notice ++ NC) else echo notice]).
Proof.
  intros H. destruct (unknown_process_type H) as (He & Hr & Hc & Hu & Hl).
  unfold process. rewrite He, Hr, Hc, Hu, Hl. unfold bind.
  now rewrite print_colored_line.
Qed.

Lemma process_echo (COLOR_OUTPUT MESSAGE : shstring) (log : list line) :
  fst (process COLOR_OUTPUT MESSAGE (str "echo") log) = Returned MESSAGE.
Proof.
  unfold process. change (Text.eqb (str "echo") (str "echo")) with true.
  cbv iota. unfold bind.
  match goal with
  | |- context [print_colored ?c ?col ?msg ?l] =>
      destruct (print_colored_returns c col msg l) as [printed ->]
  end.
  reflexivity.
Qed.

(** The [reverse] branch: the script exits with the status of [rev] when
    that is not 0, before it prints anything; otherwise it runs one [echo]
    and [RESULT] is the output of [rev] without its trailing newlines. *)
Lemma process_reverse (COLOR_OUTPUT MESSAGE : shstring) (log : list line) :
  process COLOR_OUTPUT MESSAGE (str "reverse") log
  = match rev_output (echo_output MESSAGE) with
    | Returned output =>
        (Returned (command_substitution output),
         log ++ [let mode := [128260%N] ++ str " Reverse mode: Reversed the message" in
                 if Text.eqb COLOR_OUTPUT (str "true")
                 then echo_e (GREEN ++ mode ++ NC) else echo mode])
    | Thrown status => (Thrown status, log)
    end.
Proof.
  unfold process.
  change (Text.eqb (str "reverse") (str "echo")) with false.
  change (Text.eqb (str "reverse") (str "reverse")) with true.
  cbv iota. unfold bind, pipefail.
  destruct (rev_output (echo_output MESSAGE)) as [output|status];
    [|reflexivity].
  unfold ret at 1. now rewrite print_colored_line.
Qed.

(** [rev] succeeds on a text whose units are all characters or newlines. *)
Lemma rev_output_readable (input : shstring) :
  forallb readable input = true -> rev_output input = Returned (rev_lines input).
Proof. unfold rev_output. now intros ->. Qed.

Lemma readable_echo_output (MESSAGE : shstring) :
  is_echo_option MESSAGE = true \/ forallb readable MESSAGE = true ->
  forallb readable (echo_output MESSAGE) = true.
Proof.
  unfold echo_output. intros [H|H].
  - rewrite H. destruct (existsb (N.eqb 110) MESSAGE); reflexivity.
  - destruct (is_echo_option MESSAGE).
    + destruct (existsb (N.eqb 110) MESSAGE); reflexivity.
    + rewrite forallb_app, H. reflexivity.
Qed.

(** What the [reverse] branch leaves in [RESULT] for a message of
    characters that [echo] prints as it is and that does not end in a
    newline. *)
Lemma process_reverse_readable (COLOR_OUTPUT MESSAGE : shstring) (log : list line) :
  is_echo_option MESSAGE = false ->
  forallb readable MESSAGE = true ->
  last MESSAGE 0%N <> LF ->
  fst (process COLOR_OUTPUT MESSAGE (str "reverse") log)
  = Returned (rev_lines MESSAGE).
Proof.
  intros Hopt Hchars Hlast. rewrite process_reverse.
  rewrite rev_output_readable by (apply readable_echo_output; now right).
  cbn [fst]. now rewrite reverse_pipeline.
Qed.

End CaseStatement.

(** *** Code units and code points *)

Lemma reverse_units (s : jsstring) : join [] (rev (split_units s)) = rev s.
Proof.
  unfold split_units. rewrite <- map_rev.
  induction (rev s) as [|u us IH]; [reflexivity|].
  simpl map. destruct us as [|u' us]; [reflexivity|].
  rewrite join_cons by discriminate. simpl. now rewrite <- IH.
Qed.

Lemma existsb_rev {A} (f : A -> bool) (l : list A) :
  existsb f (rev l) = existsb f l.
Proof.
  induction l as [|x l IH]; [reflexivity|].
  simpl. rewrite existsb_app, IH. simpl. rewrite orb_false_r. apply orb_comm.
Qed.

Lemma code_points_bmp (s : jsstring) :
  existsb is_surrogate s = false -> code_points s = s.
Proof.
  induction s as [|hi rest IH]; [reflexivity|]. intros H.
  simpl in H. apply orb_false_iff in H as [Hhi Hrest].
  unfold is_surrogate in Hhi. apply orb_false_iff in Hhi as [Hhigh _].
  change (code_points (hi :: rest))
    with (match rest with
          | lo :: rest' =>
              if (is_high_surrogate hi && is_low_surrogate lo)%bool
              then (65536 + (hi - 55296) * 1024 + (lo - 56320))%N :: code_points rest'
              else hi :: code_points rest
          | [] => [hi]
          end).
  destruct rest as [|lo rest']; [reflexivity|].
  rewrite Hhigh. simpl andb. cbv iota. now rewrite IH.
Qed.

Lemma analyzeText_words {CM : CaseMapping} (text : jsstring) :
  wordCount (analyzeText text)
  = length (filter Spec.nonempty (split_whitespace text))
  /\ uniqueWords (analyzeText text)
     = length (Set_of (map (fun w => toLowerCase w)
                           (filter Spec.nonempty (split_whitespace text)))).
Proof. split; reflexivity. Qed.

(** *** The boundary around the dispatcher *)

Section Boundary.
Context {CM : CaseMapping} {JS : Engine}.

(** Without a value for [input-text] the action fails before it logs the
    inputs: the handler reports the failure and then the stack of the
    error, when the engine has recorded one. *)
Lemma run_switch_without_text (inputs : jsstring -> option jsstring)
    (context : github_context) (log : list event) :
  inputs (str "input-text") = None \/ inputs (str "input-text") = Some [] ->
  run_switch inputs context log
  = (Returned None,
     log ++ setFailed (str "Action failed with error: "
                       ++ str "Input required and not supplied: input-text")
         :: match Error_stack (str "Input required and not supplied: input-text") with
            | [] => []
            | trace => [debug (str "Stack trace: " ++ trace)]
            end).
Proof.
  intros H. unfold run_switch, catch, bind, getInput.
  assert (E : match inputs (str "input-text") with Some v => v | None => [] end = [])
    by (destruct H as [-> | ->]; reflexivity).
  rewrite E. cbn [length Nat.eqb andb throw message stack].
  change (str "Input required and not supplied: " ++ str "input-text")
    with (str "Input required and not supplied: input-text").
  unfold emit at 1.
  destruct (Error_stack (str "Input required and not supplied: input-text"))
    as [|u trace]; cbn [length Nat.eqb negb]; unfold emit, ret;
    rewrite <- ?app_assoc; reflexivity.
Qed.

(** With one, it reaches the switch: what is logged before the switch are
    [info] lines and one [debug] line, and the switch is run on the
    trimmed text and on the operation type, [analyze] when there is none. *)
Lemma run_switch_with_text (inputs : jsstring -> option jsstring)
    (context : github_context) (value : jsstring) (log : list event) :
  inputs (str "input-text") = Some value -> value <> [] ->
  exists before,
    (forall e, In e before -> (exists m, e = info m) \/ (exists m, e = debug m))
    /\ forall r events,
        dispatch (trim value)
          (or_else (trim (match inputs (str "operation-type") with
                          | Some v => v
                          | None => []
                          end)) (str "analyze"))
          (log ++ before)
        = (Returned r, (log ++ before) ++ events) ->
        run_switch inputs context log = (Returned (Some r), log ++ before ++ events).
Proof.
  intros E Hne. unfold run_switch, catch, bind, getInput. rewrite E.
  destruct value as [|u value]; [contradiction|].
  cbn [length Nat.eqb andb throw ret]. unfold emit. cbv zeta.
  repeat rewrite <- app_assoc. cbn [app].
  match goal with
  | |- context [dispatch _ _ (log ++ ?b)] => exists b
  end.
  split.
  - intros e He. cbn [In] in He.
    repeat (destruct He as [<-|He];
            [first [left; eexists; reflexivity | right; eexists; reflexivity]|]).
    destruct He.
  - intros r events ->. unfold ret. now rewrite <- app_assoc.
Qed.

End Boundary.

(** The script exits with status 1 when its first argument is missing or
    empty, and reaches the [case] statement otherwise. *)
Lemma entrypoint_case_without_message {C : Container}
    (args : list shstring) (log : list line) :
  parameter_or args 0 [] = [] ->
  entrypoint_case args log
  = (Thrown 1, log ++ [echo (str "::error::MESSAGE argument is required")]).
Proof.
  intros E. unfold entrypoint_case. rewrite E. reflexivity.
Qed.

Lemma entrypoint_case_with_message {C : Container}
    (args : list shstring) (log : list line) :
  parameter_or args 0 [] <> [] ->
  entrypoint_case args log
  = process (parameter_or args 2 (str "true")) (parameter_or args 0 [])
      (parameter_or args 1 (str "echo")) log.
Proof.
  intros Hne. unfold entrypoint_case.
  destruct (parameter_or args 0 []) as [|c MESSAGE]; [contradiction|].
  reflexivity.
Qed.

(** *** The operands of the average *)

Lemma fold_left_lengths (words : list jsstring) (start : nat) :
  fold_left (fun sum word => sum + length word) words start
  = start + list_sum (map (@length N) words).
Proof.
  revert start. induction words as [|w words IH]; intros start; simpl.
  - lia.
  - rewrite IH. lia.
Qed.

(** [avgWordLength] is the number 0 for a text without words; otherwise it
    is [toFixed(2)] of the quotient of the total length of the words by
    their number. *)
Lemma avgWordLength_operands {CM : CaseMapping} (text : jsstring) :
  avgWordLength (analyzeText text)
  = match filter Spec.nonempty (split_whitespace text) with
    | [] => Number_0
    | words => toFixed_2 (list_sum (map (@length N) words)) (length words)
    end.
Proof.
  unfold analyzeText, Spec.nonempty, jsstring, Text.text. cbn [avgWordLength].
  generalize (filter (fun word : list N => 0 <? length word)
                (split_whitespace text)).
  intros [|w words]; [reflexivity|].
  cbn [length Nat.ltb Nat.leb]. now rewrite fold_left_lengths.
Qed.

(** The total length of the words is the number of code units that are not
    whitespace, and no word is empty. *)
Lemma split_whitespace_lengths (in_run : bool) (s : jsstring) :
  list_sum (map (@length N) (split_whitespace_from in_run s))
  = length (filter (fun c => negb (is_whitespace c)) s).
Proof.
  revert in_run. induction s as [|c s IH]; intros in_run; [reflexivity|].
  simpl. destruct (is_whitespace c); simpl.
  - destruct in_run; [apply IH|]. simpl. apply IH.
  - specialize (IH false).
    pose proof (split_whitespace_from_not_nil false s) as Hne.
    destruct (split_whitespace_from false s) as [|p rest]; [contradiction|].
    simpl in *. now rewrite <- IH.
Qed.

Lemma nonempty_lengths (pieces : list jsstring) :
  list_sum (map (@length N) (filter Spec.nonempty pieces))
  = list_sum (map (@length N) pieces).
Proof.
  induction pieces as [|p pieces IH]; [reflexivity|].
  simpl. destruct p as [|c p]; simpl; [exact IH|]. now rewrite IH.
Qed.

Lemma nonempty_words_lengths (pieces : list jsstring) :
  length (filter Spec.nonempty pieces)
  <= list_sum (map (@length N) (filter Spec.nonempty pieces)).
Proof.
  induction pieces as [|p pieces IH]; [apply Nat.le_refl|].
  simpl. destruct p as [|c p]; simpl; [exact IH|]. lia.
Qed.

(** *** Binary64 quotients

    What [binary_normalize] and [SFdiv] give for the integers that
    [analyzeText] divides: the operands are normal numbers with a mantissa
    of 53 bits, the quotient of the mantissas has 53 or 54 bits, and
    rounding it to nearest leaves an error of half a unit in the last
    place at most. *)

Section Binary64.
Local Open Scope Z_scope.

Lemma digits2_pos_bounds (p : positive) :
  2 ^ (Zpos (digits2_pos p) - 1) <= Zpos p < 2 ^ Zpos (digits2_pos p).
Proof.
  induction p as [p IH|p IH|]; cbn [digits2_pos].
  - rewrite Pos2Z.inj_succ.
    replace (Z.succ (Zpos (digits2_pos p)) - 1) with (Z.succ (Zpos (digits2_pos p) - 1)) by lia.
    rewrite !Z.pow_succ_r by lia. lia.
  - rewrite Pos2Z.inj_succ.
    replace (Z.succ (Zpos (digits2_pos p)) - 1) with (Z.succ (Zpos (digits2_pos p) - 1)) by lia.
    rewrite !Z.pow_succ_r by lia. lia.
  - cbn. lia.
Qed.

Lemma digits2_pos_unique (p : positive) (d : Z) :
  2 ^ (d - 1) <= Zpos p < 2 ^ d -> Zpos (digits2_pos p) = d.
Proof.
  intros [Hlow Hhigh].
  destruct (digits2_pos_bounds p) as [Hl Hh].
  assert (0 < d).
  { destruct (Z.lt_trichotomy d 0) as [Hd|[Hd|Hd]]; try assumption.
    - rewrite (Z.pow_neg_r 2 d) in Hhigh by assumption. lia.
    - subst d. cbn in Hhigh. lia. }
  assert (Hd1 : Zpos (digits2_pos p) - 1 < d).
  { apply (Z.pow_lt_mono_r_iff 2); lia. }
  assert (Hd2 : d - 1 < Zpos (digits2_pos p)).
  { apply (Z.pow_lt_mono_r_iff 2); lia. }
  lia.
Qed.

Lemma iter_xO (q m : positive) :
  Zpos (Pos.iter xO m q) = Zpos m * 2 ^ Zpos q.
Proof.
  induction q as [|q IH] using Pos.peano_ind.
  - cbn. lia.
  - rewrite Pos.iter_succ, Pos2Z.inj_succ, Z.pow_succ_r by lia.
    rewrite Pos2Z.inj_xO, IH. lia.
Qed.

Lemma fexp_normal (z : Z) : -1021 <= z -> fexp 53 1024 z = z - 53.
Proof. unfold fexp, emin. lia. Qed.

Lemma shl_align_spec (mx : positive) (ex ex' : Z) :
  ex' <= ex ->
  exists mz, shl_align mx ex ex' = (mz, ex') /\ Zpos mz = Zpos mx * 2 ^ (ex - ex').
Proof.
  intros H. unfold shl_align. destruct (ex' - ex) eqn:E.
  - exists mx. assert (ex' = ex) by lia. subst ex'.
    split; [reflexivity|]. rewrite Z.sub_diag. lia.
  - lia.
  - exists (Pos.iter xO mx p). split; [reflexivity|].
    rewrite iter_xO. f_equal. f_equal. lia.
Qed.

Lemma shr_fexp_normal (m : positive) (e : Z) (l : location) (d : Z) :
  Zpos (digits2_pos m) = d -> -1021 <= d + e ->
  shr_fexp 53 1024 (Zpos m) e l = shr (shr_record_of_loc (Zpos m) l) e (d - 53).
Proof.
  intros Hd He. unfold shr_fexp. cbn [Zdigits2]. rewrite Hd.
  rewrite fexp_normal by lia. f_equal. lia.
Qed.

Lemma round_canonical (sx : bool) (m : positive) (e : Z) :
  Zpos (digits2_pos m) = 53 -> -1074 <= e <= 971 ->
  binary_round_aux 53 1024 sx (Zpos m) e loc_Exact = S754_finite sx m e.
Proof.
  intros Hd He. unfold binary_round_aux.
  rewrite (@shr_fexp_normal m e loc_Exact 53 Hd) by lia.
  change (53 - 53) with 0. cbn [shr shr_record_of_loc shr_m loc_of_shr_record round_nearest_even].
  rewrite (@shr_fexp_normal m e loc_Exact 53 Hd) by lia.
  change (53 - 53) with 0. cbn [shr shr_record_of_loc shr_m].
  change (1024 - 53) with 971.
  destruct (Z.leb_spec e 971); [reflexivity|lia].
Qed.

Lemma Number_of_nat_normal (k : nat) :
  1 <= Z.of_nat k < 2 ^ 53 ->
  exists m e,
    Number_of_nat k = S754_finite false m e
    /\ Zpos (digits2_pos m) = 53
    /\ -52 <= e <= 0
    /\ Zpos m = Z.of_nat k * 2 ^ (- e).
Proof.
  intros [Hlow Hhigh]. unfold Number_of_nat, Number_of_Z, binary_normalize.
  destruct (Z.of_nat k) as [|p|p] eqn:Ek; try lia.
  unfold binary_round.
  pose proof (digits2_pos_bounds p) as [Hdl Hdh].
  assert (Hd : 1 <= Zpos (digits2_pos p) <= 53).
  { split; [lia|].
    assert (Zpos (digits2_pos p) - 1 < 53); [|lia].
    apply (Z.pow_lt_mono_r_iff 2); lia. }
  rewrite fexp_normal by lia.
  destruct (@shl_align_spec p 0 (Zpos (digits2_pos p) + 0 - 53)) as (mz & -> & Hmz);
    [lia|].
  assert (Hdz : Zpos (digits2_pos mz) = 53).
  { apply digits2_pos_unique. rewrite Hmz.
    replace (0 - (Zpos (digits2_pos p) + 0 - 53)) with (53 - Zpos (digits2_pos p)) by lia.
    assert (E1 : 2 ^ (53 - 1)
                 = 2 ^ (Zpos (digits2_pos p) - 1) * 2 ^ (53 - Zpos (digits2_pos p)))
      by (rewrite <- Z.pow_add_r by lia; f_equal; lia).
    assert (E2 : 2 ^ 53 = 2 ^ Zpos (digits2_pos p) * 2 ^ (53 - Zpos (digits2_pos p)))
      by (rewrite <- Z.pow_add_r by lia; f_equal; lia).
    assert (0 < 2 ^ (53 - Zpos (digits2_pos p))) by (apply Z.pow_pos_nonneg; lia).
    rewrite E1, E2. nia. }
  exists mz, (Zpos (digits2_pos p) + 0 - 53).
  split; [apply round_canonical; [assumption|lia]|].
  split; [assumption|]. split; [lia|].
  rewrite Hmz. f_equal; f_equal; lia.
Qed.

Lemma new_location_spec (m2 r : Z) :
  0 <= r < m2 ->
  match new_location m2 r with
  | loc_Exact => r = 0
  | loc_Inexact Lt => 0 < r /\ 2 * r < m2
  | loc_Inexact Eq => 0 < r /\ 2 * r = m2
  | loc_Inexact Gt => 0 < r /\ m2 < 2 * r
  end.
Proof.
  intros Hr. unfold new_location, new_location_even, new_location_odd.
  destruct (Z.even m2) eqn:Heven.
  - destruct (Z.eqb_spec r 0); [assumption|].
    destruct (Z.compare_spec (2 * r) m2); lia.
  - destruct (Z.eqb_spec r 0); [assumption|].
    assert (Hodd : Z.odd m2 = true) by (rewrite <- Z.negb_even, Heven; reflexivity).
    apply Z.odd_spec in Hodd as [half Hhalf].
    destruct (Z.compare_spec (2 * r + 1) m2); lia.
Qed.

Lemma round_nearest_even_spec (q m2 r : Z) :
  0 <= r < m2 ->
  let m := round_nearest_even q (new_location m2 r) in
  q <= m <= q + 1 /\ 2 * Z.abs (m * m2 - (q * m2 + r)) <= m2.
Proof.
  intros Hr. pose proof (new_location_spec Hr) as Hloc. cbv zeta.
  destruct (new_location m2 r) as [|[| |]]; cbn [round_nearest_even].
  - subst r. split; lia.
  - destruct (Z.even q); split; lia.
  - split; lia.
  - split; lia.
Qed.

Lemma shr_record_of_loc_inv (m : Z) (l : location) :
  shr_m (shr_record_of_loc m l) = m
  /\ loc_of_shr_record (shr_record_of_loc m l) = l.
Proof. destruct l as [|[| |]]; split; reflexivity. Qed.

(** The second rounding step: a mantissa of 53 bits stays, 2^53 is
    renormalized. *)
Lemma finish_round (sx : bool) (mr e : Z) :
  2 ^ 52 <= mr <= 2 ^ 53 -> -1074 <= e <= 970 ->
  exists m k,
    (let '(mrs, e') := shr_fexp 53 1024 mr e loc_Exact in
     match shr_m mrs with
     | Z0 => S754_zero sx
     | Zpos m => if Z.leb e' (1024 - 53) then S754_finite sx m e' else S754_infinity sx
     | Zneg _ => S754_nan
     end) = S754_finite sx m (e + k)
    /\ 0 <= k <= 1
    /\ Zpos m * 2 ^ k = mr
    /\ Zpos (digits2_pos m) = 53.
Proof.
  intros Hmr He.
  destruct mr as [|p|p]; try lia.
  destruct (Z.eq_dec (Zpos p) (2 ^ 53)) as [E|E].
  - injection E as ->.
    exists (4503599627370496%positive), 1.
    rewrite (@shr_fexp_normal 9007199254740992 e loc_Exact 54 eq_refl) by lia.
    change (54 - 53) with 1. cbn [shr iter_pos shr_record_of_loc shr_1 shr_m orb].
    change (1024 - 53) with 971.
    destruct (Z.leb_spec (e + 1) 971); [|lia].
    repeat split; try reflexivity; lia.
  - assert (Hd : Zpos (digits2_pos p) = 53) by (apply digits2_pos_unique; lia).
    exists p, 0.
    rewrite (@shr_fexp_normal _ e loc_Exact 53 Hd) by lia.
    change (53 - 53) with 0. cbn [shr shr_record_of_loc shr_m].
    change (1024 - 53) with 971.
    destruct (Z.leb_spec e 971); [|lia].
    rewrite Z.add_0_r. repeat split; try assumption; lia.
Qed.

(** The first rounding step on a quotient of 53 or 54 bits with the place
    of the remainder. *)
Lemma round_quotient (q m2 r e : Z) :
  2 ^ 52 <= q < 2 ^ 54 -> 0 <= r < m2 -> -1074 <= e <= 968 ->
  exists m k,
    binary_round_aux 53 1024 false q e (new_location m2 r)
    = S754_finite false m (e + k)
    /\ 0 <= k <= 2
    /\ Zpos (digits2_pos m) = 53
    /\ 2 * Z.abs (Zpos m * 2 ^ k * m2 - (q * m2 + r)) <= 2 ^ k * m2.
Proof.
  intros Hq Hr He.
  destruct q as [|qp|qp]; try lia.
  pose proof (new_location_spec Hr) as Hloc.
  unfold binary_round_aux.
  destruct (Z.lt_ge_cases (Zpos qp) (2 ^ 53)) as [Hsmall|Hlarge].
  - assert (Hd : Zpos (digits2_pos qp) = 53) by (apply digits2_pos_unique; lia).
    rewrite (@shr_fexp_normal qp e _ 53 Hd) by lia.
    change (53 - 53) with 0. cbn [shr].
    destruct (shr_record_of_loc_inv (Zpos qp) (new_location m2 r)) as [-> ->].
    destruct (@round_nearest_even_spec (Zpos qp) m2 r Hr) as [Hm Hacc].
    destruct (@finish_round false (round_nearest_even (Zpos qp) (new_location m2 r)) e)
      as (m & k & -> & Hk & Hmk & Hdm); [lia|lia|].
    exists m, k. split; [reflexivity|]. split; [lia|]. split; [assumption|].
    rewrite Hmk.
    assert (0 < 2 ^ k) by (apply Z.pow_pos_nonneg; lia). nia.
  - assert (Hd : Zpos (digits2_pos qp) = 54) by (apply digits2_pos_unique; lia).
    rewrite (@shr_fexp_normal qp e _ 54 Hd) by lia.
    change (54 - 53) with 1. cbn [shr iter_pos].
    assert (Hstep : exists p l,
               shr_1 (shr_record_of_loc (Zpos qp) (new_location m2 r))
               = shr_record_of_loc (Zpos p) l
               /\ 2 ^ 52 <= Zpos p < 2 ^ 53
               /\ 2 * Z.abs (round_nearest_even (Zpos p) l * (2 * m2)
                             - (Zpos qp * m2 + r)) <= 2 * m2
               /\ Zpos p <= round_nearest_even (Zpos p) l <= Zpos p + 1).
    { destruct qp as [p|p|]; [| |lia].
      - destruct (new_location m2 r) as [|[| |]]; cbn [shr_record_of_loc shr_1 orb].
        + exists p, (loc_Inexact Eq). split; [reflexivity|].
          cbn [round_nearest_even]. destruct (Z.even (Zpos p)); repeat split; lia.
        + exists p, (loc_Inexact Gt). split; [reflexivity|].
          cbn [round_nearest_even]. repeat split; lia.
        + exists p, (loc_Inexact Gt). split; [reflexivity|].
          cbn [round_nearest_even]. repeat split; lia.
        + exists p, (loc_Inexact Gt). split; [reflexivity|].
          cbn [round_nearest_even]. repeat split; lia.
      - destruct (new_location m2 r) as [|[| |]]; cbn [shr_record_of_loc shr_1 orb].
        + exists p, loc_Exact. split; [reflexivity|].
          cbn [round_nearest_even]. repeat split; lia.
        + exists p, (loc_Inexact Lt). split; [reflexivity|].
          cbn [round_nearest_even]. repeat split; lia.
        + exists p, (loc_Inexact Lt). split; [reflexivity|].
          cbn [round_nearest_even]. repeat split; lia.
        + exists p, (loc_Inexact Lt). split; [reflexivity|].
          cbn [round_nearest_even]. repeat split; lia. }
    destruct Hstep as (p & l & -> & Hp & Hacc & Hm).
    destruct (shr_record_of_loc_inv (Zpos p) l) as [-> ->].
    destruct (@finish_round false (round_nearest_even (Zpos p) l) (e + 1))
      as (m & k & -> & Hk & Hmk & Hdm); [lia|lia|].
    exists m, (1 + k). split; [f_equal; lia|]. split; [lia|]. split; [assumption|].
    rewrite Z.pow_add_r by lia. change (2 ^ 1) with 2.
    assert (0 < 2 ^ k) by (apply Z.pow_pos_nonneg; lia).
    rewrite <- Hmk in Hacc. nia.
Qed.

(** The quotient of two normal numbers of moderate size. *)
Lemma Number_div_normal (m1 m2 : positive) (e1 e2 : Z) :
  Zpos (digits2_pos m1) = 53 -> Zpos (digits2_pos m2) = 53 ->
  -52 <= e1 <= 0 -> -52 <= e2 <= 0 ->
  exists m k,
    Number_div (S754_finite false m1 e1) (S754_finite false m2 e2)
    = S754_finite false m (e1 - e2 - 53 + k)
    /\ 0 <= k <= 2
    /\ Zpos (digits2_pos m) = 53
    /\ 2 * Z.abs (Zpos m * 2 ^ k * Zpos m2 - Zpos m1 * 2 ^ 53) <= 2 ^ k * Zpos m2.
Proof.
  intros Hd1 Hd2 He1 He2.
  unfold Number_div, SFdiv, SFdiv_core_binary. cbn [Zdigits2 xorb].
  rewrite Hd1, Hd2. rewrite fexp_normal by lia.
  replace (Z.min (53 + e1 - (53 + e2) - 53) (e1 - e2)) with (e1 - e2 - 53) by lia.
  replace (e1 - e2 - (e1 - e2 - 53)) with 53 by lia.
  cbv iota. rewrite Z.shiftl_mul_pow2 by lia.
  pose proof (Z_div_mod (Zpos m1 * 2 ^ 53) (Zpos m2) eq_refl) as Hdiv.
  destruct (Z.div_eucl (Zpos m1 * 2 ^ 53) (Zpos m2)) as [q r].
  destruct Hdiv as [Hdiv Hr].
  pose proof (digits2_pos_bounds m1) as Hm1. rewrite Hd1 in Hm1.
  pose proof (digits2_pos_bounds m2) as Hm2. rewrite Hd2 in Hm2.
  change (2 ^ (53 - 1)) with (2 ^ 52) in Hm1, Hm2.
  assert (Hq : 2 ^ 52 <= q < 2 ^ 54).
  { change (2 ^ 54) with (2 * 2 ^ 53). change (2 ^ 53) with (2 * 2 ^ 52) in *.
    set (t := 2 ^ 52) in *. assert (0 < t) by reflexivity. nia. }
  destruct (@round_quotient q (Zpos m2) r (e1 - e2 - 53) Hq Hr) as (m & k & -> & Hk & Hdm & Hacc);
    [lia|].
  exists m, k. split; [reflexivity|]. split; [assumption|]. split; [assumption|].
  rewrite Hdiv. replace (Zpos m2 * q + r) with (q * Zpos m2 + r) by lia. exact Hacc.
Qed.

Lemma hundredths_bound (m n s P : Z) :
  0 < n -> 0 <= s -> 0 < P -> 100 * n < P ->
  2 * Z.abs (m * n - s * P) <= n ->
  2 * Z.abs ((200 * m + P) / (2 * P) * n - 100 * s) <= n.
Proof.
  intros Hn Hs HP Hbig Hacc.
  pose proof (Z.div_mod (200 * m + P) (2 * P)) as Hdiv.
  pose proof (Z.mod_pos_bound (200 * m + P) (2 * P)) as Hrem.
  set (N := (200 * m + P) / (2 * P)) in *.
  set (rem := (200 * m + P) mod (2 * P)) in *.
  specialize (Hdiv ltac:(lia)). specialize (Hrem ltac:(lia)).
  set (A := m * n - s * P) in *.
  assert (E : 2 * P * (N * n - 100 * s) = 200 * A + n * (P - rem)).
  { unfold A. nia. }
  assert (Hup : 2 * P * (N * n - 100 * s) < P * (n + 1)) by nia.
  assert (Hdown : - (P * (n + 1)) < 2 * P * (N * n - 100 * s)) by nia.
  assert (2 * (N * n - 100 * s) < n + 1) by nia.
  assert (- (n + 1) < 2 * (N * n - 100 * s)) by nia.
  lia.
Qed.

(** The quotient of a total by a count not above it is a double near the
    mean, and the hundredths that [toFixed(2)] makes of it are within half
    a hundredth of the mean. *)
Lemma quotient_hundredths (total count : nat) :
  (0 < count)%nat -> (count <= total)%nat -> Z.of_nat total < 2 ^ 45 ->
  exists m e,
    Number_div (Number_of_nat total) (Number_of_nat count) = S754_finite false m e
    /\ e < 0
    /\ Zpos m < 2 ^ 53
    /\ 0 <= hundredths m e
    /\ 2 * Z.abs (hundredths m e * Z.of_nat count - 100 * Z.of_nat total)
       <= Z.of_nat count.
Proof.
  intros Hcount Hle Htotal.
  destruct (@Number_of_nat_normal total) as (m1 & e1 & -> & Hd1 & He1 & Hm1).
  { split; [lia|]. change (2 ^ 53) with (256 * 2 ^ 45). lia. }
  destruct (@Number_of_nat_normal count) as (m2 & e2 & -> & Hd2 & He2 & Hm2).
  { split; [lia|]. change (2 ^ 53) with (256 * 2 ^ 45). lia. }
  destruct (@Number_div_normal m1 m2 e1 e2 Hd1 Hd2 He1 He2)
    as (m & k & -> & Hk & Hdm & Hacc).
  pose proof (digits2_pos_bounds m1) as Hb1. rewrite Hd1 in Hb1.
  pose proof (digits2_pos_bounds m) as Hb. rewrite Hdm in Hb.
  change (2 ^ (53 - 1)) with (2 ^ 52) in Hb1, Hb.
  assert (Ha : 8 <= - e1).
  { assert (7 < - e1); [|lia]. apply (Z.pow_lt_mono_r_iff 2); [lia|lia|].
    change (2 ^ 7) with 128. change (2 ^ 52) with (128 * 2 ^ 45) in Hb1.
    assert (0 < 2 ^ (- e1)) by (apply Z.pow_pos_nonneg; lia). nia. }
  set (E := e1 - e2 - 53 + k).
  assert (HE : E <= -7) by (unfold E; lia).
  exists m, E. split; [reflexivity|]. split; [lia|]. split; [lia|].
  unfold hundredths. destruct (Z.leb_spec 0 E) as [|_]; [lia|].
  replace (2 ^ (1 - E)) with (2 * 2 ^ (- E))
    by (replace (1 - E) with (Z.succ (- E)) by lia; rewrite Z.pow_succ_r by lia; reflexivity).
  set (P := 2 ^ (- E)).
  set (T := 2 ^ (k - e2)).
  assert (HP : 0 < P) by (apply Z.pow_pos_nonneg; lia).
  split; [apply Z.div_pos; lia|].
  assert (HT : 0 < T) by (apply Z.pow_pos_nonneg; lia).
  assert (E1 : 2 ^ k * Zpos m2 = Z.of_nat count * T).
  { rewrite Hm2. unfold T.
    replace (k - e2) with (k + - e2) by lia. rewrite Z.pow_add_r by lia. ring. }
  assert (E2 : Zpos m1 * 2 ^ 53 = Z.of_nat total * P * T).
  { rewrite Hm1. unfold P, T. rewrite <- !Z.mul_assoc, <- !Z.pow_add_r by lia.
    f_equal. f_equal. unfold E. lia. }
  assert (Hacc' : 2 * Z.abs (Zpos m * Z.of_nat count - Z.of_nat total * P)
                  <= Z.of_nat count).
  { replace (Zpos m * 2 ^ k * Zpos m2) with (Zpos m * Z.of_nat count * T) in Hacc
      by (rewrite <- (Z.mul_assoc (Zpos m)), <- E1; ring).
    rewrite E1, E2 in Hacc.
    replace (Zpos m * Z.of_nat count * T - Z.of_nat total * P * T)
      with ((Zpos m * Z.of_nat count - Z.of_nat total * P) * T) in Hacc by lia.
    rewrite Z.abs_mul, (Z.abs_eq T) in Hacc by lia. nia. }
  apply hundredths_bound; try lia.
  assert (2 * (Z.of_nat total * P) >= (2 ^ 53 - 1) * Z.of_nat count).
  { change (2 ^ 53 - 1) with (2 * 2 ^ 52 - 1). nia. }
  change (2 ^ 53 - 1) with 9007199254740991 in *.
  change (2 ^ 45) with 35184372088832 in *. nia.
Qed.

(** The bound on the total matters: 2^47 over 3 is 46912496118442.666...,
    and the hundredths that [toFixed(2)] makes of the quotient are
    ...42.66, not the nearest ones. *)
Lemma quotient_hundredths_beyond_bound :
  Number_div (Number_of_Z (2 ^ 47)) (Number_of_Z 3)
  = S754_finite false 6004799503160661 (-7)
  /\ hundredths 6004799503160661 (-7) = 4691249611844266
  /\ 3 < 2 * Z.abs (4691249611844266 * 3 - 100 * 2 ^ 47).
Proof. repeat split; vm_compute; reflexivity. Qed.

End Binary64.

(** *** A tab between two tokens *)

Lemma capitalized_tab {CM : CaseMapping} (laws : CaseMappingLaws CM) :
  capitalized (transformText (str "a" ++ [9%N] ++ str "b"))
  = str "A" ++ [9%N] ++ str "b"
  /\ Spec.title_case (str "a" ++ [9%N] ++ str "b")
     = str "A" ++ [9%N] ++ str "B".
Proof.
  split.
  - now rewrite (transformText_ascii laws) by reflexivity.
  - unfold Spec.title_case. cbn.
    rewrite (toUpperCase_ascii [97%N] eq_refl).
    rewrite (toUpperCase_ascii [98%N] eq_refl).
    now rewrite (toLowerCase_nil laws).
Qed.

(** ** The claims of the specification *)

(** C1.  An operation name that the dispatcher does not know is not an
    error.  In the JavaScript action a name whose lowercase form is none of
    [analyze], [transform], [validate] makes the switch log one warning and
    return what [analyze] returns; in the entrypoint script a process type
    that is none of the five names of the [case] statement runs one [echo],
    whose argument is the notice "Unknown process type '...', defaulting to
    echo" (between the codes for yellow and for no colour, under [echo -e],
    when colours are on), and leaves the message itself in [RESULT], as
    [echo] does.  Neither throws nor exits. *)
Theorem unknown_operation_falls_back {CM : CaseMapping} (laws : CaseMappingLaws CM)
    {C : Container} :
  (forall inputText operationType log,
      ~ In (toLowerCase operationType) known_operations ->
      dispatch inputText operationType log
      = (Returned (Analysis (analyzeText inputText),
                   {| type := str "analysis";
                      spread := Analysis (analyzeText inputText) |}),
         log ++ [warning (str "Unknown operation type: " ++ operationType
                          ++ str ". Defaulting to 'analyze'.")])
      /\ fst (dispatch inputText operationType log)
         = fst (dispatch inputText (str "analyze") log))
  /\ (forall COLOR_OUTPUT MESSAGE PROCESS_TYPE log,
      ~ In PROCESS_TYPE known_process_types ->
      process COLOR_OUTPUT MESSAGE PROCESS_TYPE log
      = (Returned MESSAGE,
         log ++ [let notice :=
                   [9888%N; 65039%N] ++ str "  Unknown process type '"
                   ++ PROCESS_TYPE ++ str "', defaulting to echo" in
                 if Text.eqb COLOR_OUTPUT (str "true")
                 then echo_e (YELLOW ++ notice ++ NC) else echo notice])
      /\ fst (process COLOR_OUTPUT MESSAGE PROCESS_TYPE log)
         = fst (process COLOR_OUTPUT MESSAGE (str "echo") log)).
Proof.
  split.
  - intros inputText operationType log H. split.
    + now apply dispatch_unknown.
    + rewrite !dispatch_result.
      destruct (unknown_selector H) as (-> & -> & ->).
      rewrite (toLowerCase_known laws) by (simpl; tauto).
      reflexivity.
  - intros COLOR_OUTPUT MESSAGE PROCESS_TYPE log H. split.
    + now apply process_unknown.
    + rewrite process_unknown by assumption. now rewrite process_echo.
Qed.

Lemma unknown_operation_falls_back_witness :
  fst (@dispatch ascii_case (str "Hello world") (str "no-such-op") [])
  = fst (@dispatch ascii_case (str "Hello world") (str "analyze") [])
  /\ @process posix (str "false") (str "Hello world") (str "no-such-op") []
     = (Returned (str "Hello world"),
        [echo ([9888%N; 65039%N]
               ++ str "  Unknown process type 'no-such-op', defaulting to echo")]).
Proof.
  destruct (@unknown_operation_falls_back ascii_case ascii_case_laws posix)
    as [HJ HS]. split.
  - apply HJ. vm_compute. intros [H|[H|[H|[]]]]; discriminate H.
  - apply HS. vm_compute. intros [H|[H|[H|[H|[H|[]]]]]]; discriminate H.
Defined.




(** C3, as amended.  [validateText] reports its findings as sentences, not
    as the codes [empty], [too-long], [no-alpha]: the list [issues] holds
    "Text is empty" exactly when the text has no code unit, "Text is too
    long (>1000 chars)" exactly when it has more than 1000 code units, and
    "No alphabetic characters found" exactly when none of its code units is
    an ASCII letter; it holds nothing else, and [isValid] is true exactly
    when it is empty.  The operation [validate] of the switch returns this
    result. *)
Theorem validateText_issues {CM : CaseMapping} (laws : CaseMappingLaws CM)
    (text : jsstring) :
  (forall log,
      fst (dispatch text (str "validate") log)
      = Returned (Validation (validateText text),
                  {| type := str "validation";
                     spread := Validation (validateText text) |}))
  /\ incl (issues (validateText text))
          [str "Text is empty"; str "Text is too long (>1000 chars)";
           str "No alphabetic characters found"]
  /\ (In (str "Text is empty") (issues (validateText text)) <-> length text = 0)
  /\ (In (str "Text is too long (>1000 chars)") (issues (validateText text))
      <-> 1000 < length text)
  /\ (In (str "No alphabetic characters found") (issues (validateText text))
      <-> forall u, In u text -> is_a_zA_Z u = false)
  /\ (isValid (validateText text) = true <-> issues (validateText text) = []).
Proof.
  split; [intros log; apply (dispatch_validate laws)|].
  split.
  { unfold validateText. cbv zeta. cbn [issues].
    destruct (length text =? 0); destruct (1000 <? length text);
      destruct (negb (existsb is_a_zA_Z text)); cbn [app];
      intros issue Hissue; simpl in Hissue |- *; tauto. }
  assert (Hnone : existsb is_a_zA_Z text = false
                  <-> forall u, In u text -> is_a_zA_Z u = false).
  { split.
    - intros H u Hu. destruct (is_a_zA_Z u) eqn:E; [|reflexivity].
      assert (existsb is_a_zA_Z text = true); [|congruence].
      apply existsb_exists. now exists u.
    - intros H. destruct (existsb is_a_zA_Z text) eqn:E; [|reflexivity].
      apply existsb_exists in E as (u & Hu & Eu). rewrite (H u Hu) in Eu.
      discriminate. }
  unfold validateText. cbv zeta. cbn [issues isValid].
  rewrite <- Hnone.
  destruct (Nat.eqb_spec (length text) 0) as [E0|E0];
    destruct (Nat.ltb_spec 1000 (length text)) as [E1|E1];
    destruct (existsb is_a_zA_Z text); cbn [negb app];
    (repeat split; intros H; try assumption; try reflexivity; try discriminate H;
     try lia;
     try (vm_compute; tauto);
     try (vm_compute in H; repeat destruct H as [H|H]; try discriminate H;
          try contradiction)).
Qed.

Lemma validateText_issues_witness :
  In (str "No alphabetic characters found") (issues (validateText (str "12345")))
  <-> forall u, In u (str "12345") -> is_a_zA_Z u = false.
Proof.
  apply (validateText_issues ascii_case_laws (str "12345")).
Defined.

(** C3, as stated, fails on the empty text: its length is 0 and [issues]
    does not contain the code [empty]. *)
Lemma validateText_has_no_issue_codes :
  issues (validateText [])
  = [str "Text is empty"; str "No alphabetic characters found"]
  /\ ~ (In (str "empty") (issues (validateText [])) <-> length (@nil N) = 0).
Proof.
  split; [reflexivity|].
  intros [_ H]. specialize (H eq_refl).
  vm_compute in H. destruct H as [H|[H|[]]]; discriminate H.
Qed.

(** C4, as amended.  The JavaScript action matches the operation name
    without regard to case: the switch returns for a name what it returns
    for its lowercase form, so any spelling whose lowercase form is a known
    operation selects that operation.  The entrypoint script compares the
    process type as it is written: a spelling that is not literally one of
    the five names, were it only for its case, selects the fallback. *)
Theorem operation_name_case {CM : CaseMapping} (laws : CaseMappingLaws CM)
    {C : Container} :
  (forall inputText operationType log,
      fst (dispatch inputText operationType log)
      = fst (dispatch inputText (toLowerCase operationType) log))
  /\ (forall inputText operationType name log,
      In name known_operations ->
      toLowerCase operationType = name ->
      fst (dispatch inputText operationType log)
      = fst (dispatch inputText name log))
  /\ (forall COLOR_OUTPUT MESSAGE PROCESS_TYPE log,
      ~ In PROCESS_TYPE known_process_types ->
      fst (process COLOR_OUTPUT MESSAGE PROCESS_TYPE log) = Returned MESSAGE).
Proof.
  repeat split.
  - intros. rewrite !dispatch_result. now rewrite toLowerCase_idem.
  - intros inputText operationType name log Hname E.
    rewrite !dispatch_result. rewrite E.
    now rewrite (toLowerCase_known laws Hname).
  - intros COLOR_OUTPUT MESSAGE PROCESS_TYPE log H.
    now rewrite process_unknown.
Qed.

Lemma operation_name_case_witness :
  fst (@dispatch ascii_case (str "Hello") (str "VALIDATE") [])
  = fst (@dispatch ascii_case (str "Hello") (str "validate") [])
  /\ fst (@process posix (str "true") (str "Hello") (str "REVERSE") [])
     = Returned (str "Hello").
Proof.
  destruct (@operation_name_case ascii_case ascii_case_laws posix)
    as (_ & HJ & HS). split.
  - apply HJ; [simpl; tauto|reflexivity].
  - apply HS. vm_compute. intros [H|[H|[H|[H|[H|[]]]]]]; discriminate H.
Defined.

(** C4, as stated, fails in the entrypoint script: [REVERSE] selects the
    fallback and leaves the message as it is, while its lowercase form
    [reverse] reverses it. *)
Lemma process_type_is_case_sensitive :
  map ascii_to_lower (str "REVERSE") = str "reverse"
  /\ fst (@process posix (str "true") (str "abc") (str "REVERSE") [])
     = Returned (str "abc")
  /\ fst (@process posix (str "true") (str "abc")
            (map ascii_to_lower (str "REVERSE")) [])
     = Returned (str "cba")
  /\ fst (@process posix (str "true") (str "abc") (str "REVERSE") [])
     <> fst (@process posix (str "true") (str "abc")
               (map ascii_to_lower (str "REVERSE")) []).
Proof.
  repeat split; try reflexivity. vm_compute. discriminate.
Qed.

(** C5, as amended.  The JavaScript action (whose reversal is the
    [reversed] variant of [transform]) reverses the UTF-16 code units of
    the text; for a text without surrogate code units (every character in
    the Basic Multilingual Plane) that is the sequence of its code points
    in reverse order.  The entrypoint script reverses the characters of
    each line and keeps the order of the lines, for a message that holds
    nothing but characters of the locale and newlines, that [echo] prints
    as it is and that does not end in a newline; such a message of one line
    comes out with its characters in reverse order. *)
Theorem reverse_granularity {CM : CaseMapping} {C : Container} :
  (forall text, reversed (transformText text) = rev text)
  /\ (forall text,
      existsb is_surrogate text = false ->
      code_points (reversed (transformText text)) = rev (code_points text))
  /\ (forall COLOR_OUTPUT MESSAGE log,
      is_echo_option MESSAGE = false ->
      forallb readable MESSAGE = true ->
      last MESSAGE 0%N <> LF ->
      fst (process COLOR_OUTPUT MESSAGE (str "reverse") log)
      = Returned (join [LF] (map (@rev N) (split_on LF MESSAGE))))
  /\ (forall COLOR_OUTPUT MESSAGE log,
      is_echo_option MESSAGE = false ->
      forallb readable MESSAGE = true ->
      ~ In LF MESSAGE ->
      fst (process COLOR_OUTPUT MESSAGE (str "reverse") log)
      = Returned (rev MESSAGE)).
Proof.
  repeat split.
  - intros. apply reverse_units.
  - intros text H. cbn [reversed transformText]. rewrite reverse_units.
    rewrite !code_points_bmp; [reflexivity|assumption|].
    rewrite existsb_rev. assumption.
  - intros COLOR_OUTPUT MESSAGE log Hopt Hchars Hlast.
    now rewrite process_reverse_readable.
  - intros COLOR_OUTPUT MESSAGE log Hopt Hchars Hline.
    rewrite process_reverse_readable; try assumption.
    + now rewrite rev_lines_one_line.
    + intros E. destruct MESSAGE as [|c m]; [discriminate E|].
      apply Hline. rewrite <- E. apply last_in. discriminate.
Qed.

Lemma reverse_granularity_witness :
  code_points (reversed (@transformText ascii_case (str "abc")))
  = rev (code_points (str "abc"))
  /\ fst (@process posix (str "true") (str "ab" ++ [LF] ++ str "cd") (str "reverse") [])
     = Returned (str "ba" ++ [LF] ++ str "dc")
  /\ fst (@process posix (str "true") (str "abc") (str "reverse") [])
     = Returned (str "cba").
Proof.
  destruct (@reverse_granularity ascii_case posix) as (_ & HJ & HS & HL).
  split; [|split].
  - apply HJ. reflexivity.
  - apply (HS (str "true") (str "ab" ++ [LF] ++ str "cd") []).
    + reflexivity.
    + reflexivity.
    + vm_compute. discriminate.
  - apply (HL (str "true") (str "abc") []).
    + reflexivity.
    + reflexivity.
    + vm_compute. intros [H|[H|[H|[]]]]; discriminate H.
Defined.

(** C5, as stated, fails in both actions.  In the JavaScript action a
    character outside the Basic Multilingual Plane is taken apart: U+1F600
    is one code point and two code units, and the reversed text holds the
    two surrogates in the wrong order, which are two code points.  In the
    entrypoint script (here with the [rev] of util-linux in the POSIX
    locale) a message of two lines keeps its lines in place, a message that
    [echo] takes as options gives the empty text, a newline at the end of
    the message is lost, and a byte that is no character ends the script:
    none of these results is the message in reverse order. *)
Lemma reverse_is_not_by_code_points :
  utf16 [128512%N] = [55357%N; 56832%N]
  /\ reversed (@transformText ascii_case (utf16 [128512%N])) = [56832%N; 55357%N]
  /\ code_points (reversed (@transformText ascii_case (utf16 [128512%N])))
     <> rev (code_points (utf16 [128512%N]))
  /\ fst (@process posix (str "true") (str "ab" ++ [LF] ++ str "cd") (str "reverse") [])
     = Returned (str "ba" ++ [LF] ++ str "dc")
  /\ fst (@process posix (str "true") (str "ab" ++ [LF] ++ str "cd") (str "reverse") [])
     <> Returned (rev (str "ab" ++ [LF] ++ str "cd"))
  /\ fst (@process posix (str "true") (str "-n") (str "reverse") []) = Returned []
  /\ fst (@process posix (str "true") (str "-n") (str "reverse") [])
     <> Returned (rev (str "-n"))
  /\ fst (@process posix (str "true") (str "ab" ++ [LF]) (str "reverse") [])
     = Returned (str "ba")
  /\ fst (@process posix (str "true") (str "ab" ++ [LF]) (str "reverse") [])
     <> Returned (rev (str "ab" ++ [LF]))
  /\ fst (@process posix (str "true") [97%N; 195%N; 169%N] (str "reverse") [])
     = Thrown 1.
Proof.
  repeat split; first [reflexivity | vm_compute; discriminate].
Qed.

(** C6, as amended.  In the JavaScript action reversing twice (taking
    the [reversed] variant of [transform] of the [reversed] variant) gives
    the text back, for every text.  In the entrypoint script it does so for
    every message that holds nothing but characters of the locale and
    newlines and does not end in a newline, provided neither the message
    nor its reversal is a word that [echo] takes as options. *)
Theorem reverse_twice {CM : CaseMapping} {C : Container} :
  (forall text,
      reversed (transformText (reversed (transformText text))) = text)
  /\ (forall COLOR_OUTPUT MESSAGE log log',
      is_echo_option MESSAGE = false ->
      is_echo_option (rev MESSAGE) = false ->
      forallb readable MESSAGE = true ->
      last MESSAGE 0%N <> LF ->
      exists RESULT,
        fst (process COLOR_OUTPUT MESSAGE (str "reverse") log) = Returned RESULT
        /\ fst (process COLOR_OUTPUT RESULT (str "reverse") log') = Returned MESSAGE).
Proof.
  split.
  - intros text. cbn [reversed transformText].
    rewrite !reverse_units. apply rev_involutive.
  - intros COLOR_OUTPUT MESSAGE log log' Hopt Hrev Hchars Hlast.
    exists (rev_lines MESSAGE). split.
    + now apply process_reverse_readable.
    + rewrite process_reverse_readable.
      * now rewrite rev_lines_involutive.
      * destruct (in_dec N.eq_dec LF MESSAGE) as [Hin|Hin].
        -- destruct (is_echo_option (rev_lines MESSAGE)) eqn:E; [|reflexivity].
           exfalso. apply (echo_option_one_line _ E).
           now apply rev_lines_keeps_LF.
        -- now rewrite rev_lines_one_line.
      * now rewrite forallb_rev_lines.
      * now apply rev_lines_last.
Qed.

Lemma reverse_twice_witness :
  exists RESULT,
    fst (@process posix (str "true") (str "Hello world") (str "reverse") [])
    = Returned RESULT
    /\ fst (@process posix (str "true") RESULT (str "reverse") [])
       = Returned (str "Hello world").
Proof.
  destruct (@reverse_twice ascii_case posix) as [_ HS].
  apply (HS (str "true") (str "Hello world") [] []).
  - reflexivity.
  - reflexivity.
  - reflexivity.
  - vm_compute. discriminate.
Defined.

(** C6, as stated, fails in the entrypoint script (here with the [rev] of
    util-linux in the POSIX locale).  On a message that ends in a newline
    the command substitution drops the newline, and the second reversal
    gives the message without it.  The message "n-" is reversed to "-n",
    which [echo] takes as an option, so that the second reversal gives the
    empty text.  And on a message with a byte that is no character the
    first reversal ends the script. *)
Lemma reverse_twice_loses_text :
  fst (@process posix (str "true") (str "ab" ++ [LF]) (str "reverse") [])
  = Returned (str "ba")
  /\ fst (@process posix (str "true") (str "ba") (str "reverse") [])
     = Returned (str "ab")
  /\ fst (@process posix (str "true") (str "ba") (str "reverse") [])
     <> Returned (str "ab" ++ [LF])
  /\ fst (@process posix (str "true") (str "n-") (str "reverse") [])
     = Returned (str "-n")
  /\ fst (@process posix (str "true") (str "-n") (str "reverse") []) = Returned []
  /\ fst (@process posix (str "true") (str "-n") (str "reverse") [])
     <> Returned (str "n-")
  /\ fst (@process posix (str "true") [97%N; 195%N; 169%N] (str "reverse") [])
     = Thrown 1.
Proof.
  repeat split; first [reflexivity | vm_compute; discriminate].
Qed.

(** C7, as amended.  [capitalized] cuts the text at every SPACE (U+0020)
    and at nothing else, uppercases the first code unit of each piece and
    lowercases the rest.  For a text whose only whitespace characters are
    spaces and that has no surrogate code unit (every character in the
    Basic Multilingual Plane) that is the title case of the specification:
    the first character of every whitespace-delimited token capitalized,
    the rest lowercased.  In particular "go Actions go" becomes
    "Go Actions Go".  The operation [transform] of the switch returns the
    result that holds this variant. *)
Theorem capitalized_cuts_at_spaces {CM : CaseMapping} (laws : CaseMappingLaws CM) :
  (forall text log,
      fst (dispatch text (str "transform") log)
      = Returned (Transformation (transformText text),
                  {| type := str "transformation";
                     spread := Transformation (transformText text) |}))
  /\ (forall text,
      capitalized (transformText text)
      = join [SPACE]
          (map (fun piece =>
                  match piece with
                  | [] => []
                  | first :: others => toUpperCase [first] ++ toLowerCase others
                  end)
               (split_on SPACE text)))
  /\ (forall text,
      (forall u, In u text -> is_whitespace u = true -> u = SPACE) ->
      existsb is_surrogate text = false ->
      capitalized (transformText text) = Spec.title_case text)
  /\ capitalized (transformText (str "go Actions go")) = str "Go Actions Go".
Proof.
  split; [intros; apply (dispatch_transform laws)|].
  split.
  { intros text. cbn [capitalized transformText]. f_equal.
    apply map_ext. intros word. apply (title_code_unit laws). }
  split.
  - intros text Hws Hsur. cbn [capitalized transformText]. unfold Spec.title_case.
    pose proof (split_on_forallb _ SPACE _ (existsb_negb_forallb _ _ Hsur)) as Hpieces.
    rewrite (map_ext_in _ Spec.title_token).
    2:{ intros word Hword. apply (title_token_code laws).
        rewrite Forall_forall in Hpieces. now apply Hpieces. }
    destruct (cut_at_whitespace_spaces text Hws) as (piece & rest & -> & ->).
    simpl map. rewrite join_flat_map. f_equal.
    clear. induction rest as [|p rest IH]; [reflexivity|].
    simpl. now rewrite IH.
  - rewrite (transformText_ascii laws) by reflexivity. reflexivity.
Qed.

Lemma capitalized_cuts_at_spaces_witness :
  capitalized (@transformText ascii_case (str "hello WORLD  again"))
  = @Spec.title_case ascii_case (str "hello WORLD  again").
Proof.
  destruct (capitalized_cuts_at_spaces ascii_case_laws) as (_ & _ & H & _).
  apply H; [|reflexivity]. intros u Hu.
  vm_compute in Hu.
  repeat (destruct Hu as [<-|Hu]; [vm_compute; try discriminate; reflexivity|]).
  destruct Hu.
Defined.

(** C7, as stated, fails on a text whose tokens are separated by a tab:
    the second token is whitespace-delimited but follows no space, and its
    first letter stays in lowercase (with the ASCII case conversion, and by
    [capitalized_tab] with every case conversion that satisfies the
    laws).  It also fails on a token that begins with a letter outside the
    Basic Multilingual Plane: [charAt(0)] is the first surrogate of the
    letter, which has no upper case, so that the letter U+10428 stays small
    where the title case has its capital U+10400 (with [deseret_case],
    which satisfies the laws by [deseret_case_laws]). *)
Lemma capitalized_is_not_title_case :
  capitalized (@transformText ascii_case (str "a" ++ [9%N] ++ str "b"))
  = str "A" ++ [9%N] ++ str "b"
  /\ @Spec.title_case ascii_case (str "a" ++ [9%N] ++ str "b")
     = str "A" ++ [9%N] ++ str "B"
  /\ capitalized (@transformText ascii_case (str "a" ++ [9%N] ++ str "b"))
     <> @Spec.title_case ascii_case (str "a" ++ [9%N] ++ str "b")
  /\ utf16 [66600%N] ++ str "b" = [55297%N; 56360%N; 98%N]
  /\ capitalized (@transformText deseret_case (utf16 [66600%N] ++ str "b"))
     = utf16 [66600%N] ++ str "b"
  /\ @Spec.title_case deseret_case (utf16 [66600%N] ++ str "b")
     = utf16 [66560%N] ++ str "b"
  /\ capitalized (@transformText deseret_case (utf16 [66600%N] ++ str "b"))
     <> @Spec.title_case deseret_case (utf16 [66600%N] ++ str "b").
Proof.
  repeat split; first [reflexivity | vm_compute; discriminate].
Qed.

(** C8.  [uniqueWords] is the number of distinct whitespace-delimited
    non-empty words of the text, two words being the same when their
    lowercase forms are equal: whenever [words] lists the maximal runs of
    the text without whitespace, there is a duplicate-free list of the
    lowercase forms of these words, and [uniqueWords] is its length (and
    [wordCount] is the number of words).  In particular "The quick quick
    fox" has 3 unique words.  The operation [analyze] of the switch returns
    the result that holds this count. *)
Theorem uniqueWords_counts_distinct_words {CM : CaseMapping}
    (laws : CaseMappingLaws CM) :
  (forall text log,
      fst (dispatch text (str "analyze") log)
      = Returned (Analysis (analyzeText text),
                  {| type := str "analysis";
                     spread := Analysis (analyzeText text) |}))
  /\ (forall text, exists words, Spec.tokenized text words)
  /\ (forall text words,
      Spec.tokenized text words ->
      wordCount (analyzeText text) = length words
      /\ exists forms,
          NoDup forms
          /\ (forall form, In form forms
                           <-> exists word, In word words /\ toLowerCase word = form)
          /\ uniqueWords (analyzeText text) = length forms)
  /\ uniqueWords (analyzeText (str "The quick quick fox")) = 3.
Proof.
  split; [intros; apply (dispatch_analyze laws)|].
  split; [|split].
  - intros text. eexists. apply words_tokenized.
  - intros text words Hwords.
    assert (E : filter Spec.nonempty (split_whitespace text) = words).
    { apply (tokenized_unique (s := text)); [|assumption].
      apply words_tokenized. }
    destruct (analyzeText_words text) as [-> ->].
    rewrite E. split; [reflexivity|].
    exists (Set_of (map (fun w => toLowerCase w) words)).
    destruct (Set_of_spec (map (fun w => toLowerCase w) words)) as [Hnd Hin].
    split; [assumption|]. split; [|reflexivity].
    intros form. rewrite Hin, in_map_iff.
    split; intros (word & H1 & H2); exists word; tauto.
  - rewrite (analyzeText_ascii laws) by reflexivity. reflexivity.
Qed.

Lemma uniqueWords_counts_distinct_words_witness :
  wordCount (@analyzeText ascii_case (str " Fox fox  FOX owl"))
  = length [str "Fox"; str "fox"; str "FOX"; str "owl"]
  /\ exists forms,
      NoDup forms
      /\ (forall form,
             In form forms
             <-> exists word,
                 In word [str "Fox"; str "fox"; str "FOX"; str "owl"]
                 /\ @toLowerCase ascii_case word = form)
      /\ uniqueWords (@analyzeText ascii_case (str " Fox fox  FOX owl"))
         = length forms.
Proof.
  destruct (uniqueWords_counts_distinct_words ascii_case_laws) as (_ & _ & H & _).
  apply H.
  apply (@tokenized_word_eq _ (str " ") (str "Fox") (str " fox  FOX owl"));
    [reflexivity|reflexivity|discriminate|reflexivity| |].
  { right. eexists; eexists; split; reflexivity. }
  apply (@tokenized_word_eq _ (str " ") (str "fox") (str "  FOX owl"));
    [reflexivity|reflexivity|discriminate|reflexivity| |].
  { right. eexists; eexists; split; reflexivity. }
  apply (@tokenized_word_eq _ (str "  ") (str "FOX") (str " owl"));
    [reflexivity|reflexivity|discriminate|reflexivity| |].
  { right. eexists; eexists; split; reflexivity. }
  apply (@tokenized_word_eq _ (str " ") (str "owl") []);
    [reflexivity|reflexivity|discriminate|reflexivity| |].
  { now left. }
  apply Spec.tokenized_blank. reflexivity.
Defined.

(** C9, as amended.  [avgWordLength] is the number 0 for a text without
    words.  For a text with words (and fewer than 2^45 code units, as every
    string has that an engine can hold) it is not a number but a string:
    the numeral with two decimals of a number of hundredths that is a
    nearest neighbour of the mean of the lengths of the whitespace-delimited
    non-empty words, so that it differs from the mean by half a hundredth
    at most.  Which neighbour comes out when the mean lies half way between
    two is not stated: the binary quotient decides. *)
Theorem avgWordLength_nearest_hundredth {CM : CaseMapping}
    (text : jsstring) (words : list jsstring) :
  Spec.tokenized text words ->
  (Z.of_nat (length text) < 2 ^ 45)%Z ->
  match words with
  | [] =>
      avgWordLength (analyzeText text) = Number_0
      /\ value_of (avgWordLength (analyzeText text))
         = Some (JSNumber (S754_zero false))
  | _ :: _ =>
      exists n,
        value_of (avgWordLength (analyzeText text)) = Some (JSString (decimal_2 n))
        /\ Spec.nearest_hundredths (list_sum (map (@length N) words)) (length words) n
  end.
Proof.
  intros Hwords Hlen.
  assert (E : filter Spec.nonempty (split_whitespace text) = words).
  { apply (tokenized_unique (s := text)); [|assumption]. apply words_tokenized. }
  rewrite avgWordLength_operands, E.
  pose proof (nonempty_words_lengths (split_whitespace text)) as Hcount.
  pose proof (nonempty_lengths (split_whitespace text)) as Htotal.
  unfold split_whitespace in Htotal at 2.
  rewrite split_whitespace_lengths in Htotal.
  pose proof (filter_length_le (fun c => negb (is_whitespace c)) text) as Hfilter.
  rewrite E in Hcount, Htotal.
  destruct words as [|w ws]; [split; reflexivity|].
  set (total := list_sum (map (@length N) (w :: ws))) in *.
  set (count := length (w :: ws)) in *.
  destruct (@quotient_hundredths total count)
    as (m & e & Hq & He & Hm & Hpos & Hacc).
  { subst count. cbn [length]. lia. }
  { exact Hcount. }
  { lia. }
  exists (Z.to_N (hundredths m e)). split.
  - change (option_map JSString
              (Number_toFixed_2 (Number_div (Number_of_nat total) (Number_of_nat count)))
            = Some (JSString (decimal_2 (Z.to_N (hundredths m e))))).
    rewrite Hq. cbn [Number_toFixed_2].
    replace (below_1e21 m e) with true; [reflexivity|].
    symmetry. unfold below_1e21.
    destruct (Z.leb_spec 0 e) as [|_]; [lia|]. apply Z.ltb_lt.
    assert (0 < 2 ^ (- e))%Z by (apply Z.pow_pos_nonneg; lia).
    change (2 ^ 53)%Z with 9007199254740992%Z in Hm.
    change (10 ^ 21)%Z with 1000000000000000000000%Z. nia.
  - unfold Spec.nearest_hundredths. now rewrite Z2N.id.
Qed.

Lemma avgWordLength_nearest_hundredth_witness :
  exists n,
    value_of (avgWordLength (@analyzeText ascii_case (str "The quick  fox")))
    = Some (JSString (decimal_2 n))
    /\ Spec.nearest_hundredths
         (list_sum (map (@length N) [str "The"; str "quick"; str "fox"]))
         (length [str "The"; str "quick"; str "fox"]) n.
Proof.
  apply (@avgWordLength_nearest_hundredth ascii_case (str "The quick  fox")
           [str "The"; str "quick"; str "fox"]).
  - apply (@tokenized_word_eq _ [] (str "The") (str " quick  fox"));
      [reflexivity|reflexivity|discriminate|reflexivity| |].
    { right. eexists; eexists; split; reflexivity. }
    apply (@tokenized_word_eq _ (str " ") (str "quick") (str "  fox"));
      [reflexivity|reflexivity|discriminate|reflexivity| |].
    { right. eexists; eexists; split; reflexivity. }
    apply (@tokenized_word_eq _ (str "  ") (str "fox") []);
      [reflexivity|reflexivity|discriminate|reflexivity| |].
    { now left. }
    apply Spec.tokenized_blank. reflexivity.
  - reflexivity.
Defined.

(** C9, as stated, fails when the mean lies half way between two
    hundredths, whichever of the two usual rules the rounding follows.  199
    words of one letter and one of two have the mean 201/200 = 1.005; the
    quotient is the double just below it and the result is "1.00", where
    rounding half up gives 1.01.  7 words of one letter and one of two have
    the mean 9/8 = 1.125, which is a double; the result is "1.13", where
    rounding half to even gives 1.12.  And either result is a string, not
    the number that the claim equates it with. *)
Lemma avgWordLength_is_not_the_rounded_mean :
  let text_201_200 := concat (repeat (str "a ") 199) ++ str "aa" in
  let text_9_8 := concat (repeat (str "a ") 7) ++ str "aa" in
  avgWordLength (@analyzeText ascii_case text_201_200) = toFixed_2 201 200
  /\ Number_div (Number_of_nat 201) (Number_of_nat 200)
     = S754_finite false 4526117625507348 (-52)
  /\ (4526117625507348 * 200 < 201 * 2 ^ 52)%Z
  /\ value_of (avgWordLength (@analyzeText ascii_case text_201_200))
     = Some (JSString (str "1.00"))
  /\ decimal_2 (Spec.round_half_up 201 200) = str "1.01"
  /\ value_of (avgWordLength (@analyzeText ascii_case text_201_200))
     <> Some (JSString (decimal_2 (Spec.round_half_up 201 200)))
  /\ avgWordLength (@analyzeText ascii_case text_9_8) = toFixed_2 9 8
  /\ Number_div (Number_of_nat 9) (Number_of_nat 8)
     = S754_finite false 5066549580791808 (-52)
  /\ (5066549580791808 * 8 = 9 * 2 ^ 52)%Z
  /\ value_of (avgWordLength (@analyzeText ascii_case text_9_8))
     = Some (JSString (str "1.13"))
  /\ decimal_2 (Spec.round_half_even 9 8) = str "1.12"
  /\ value_of (avgWordLength (@analyzeText ascii_case text_9_8))
     <> Some (JSString (decimal_2 (Spec.round_half_even 9 8)))
  /\ (forall x,
         value_of (avgWordLength (@analyzeText ascii_case text_9_8))
         <> Some (JSNumber x)).
Proof.
  cbv zeta.
  repeat split; try (vm_compute; reflexivity); try (vm_compute; discriminate).
Qed.

(** C10.  The result of the operation [validate] has a third property next to
    [isValid] and [issues]: [textLength], which is the length of the text
    (its number of code units), for every text. *)
Theorem validateText_textLength {CM : CaseMapping} (laws : CaseMappingLaws CM)
    (text : jsstring) (log : list event) :
  exists r m,
    fst (dispatch text (str "validate") log) = Returned (Validation r, m)
    /\ textLength r = length text
    /\ keys (Validation r) = [str "isValid"; str "issues"; str "textLength"].
Proof.
  eexists. eexists. split; [apply (dispatch_validate laws)|].
  split; reflexivity.
Qed.

Lemma validateText_textLength_witness :
  exists r m,
    fst (@dispatch ascii_case (str "Hello") (str "validate") [])
    = Returned (Validation r, m)
    /\ textLength r = 5
    /\ keys (Validation r) = [str "isValid"; str "issues"; str "textLength"].
Proof.
  apply (validateText_textLength ascii_case_laws (str "Hello") []).
Defined.

(** ** Further properties of the code *)

(** *** [analyzeText] *)

Lemma split_on_length (sep : N) (s : text) :
  length (split_on sep s) = S (count_occ N.eq_dec s sep).
Proof.
  induction s as [|c s IH]; [reflexivity|].
  simpl split_on. simpl count_occ.
  destruct (N.eqb_spec c sep) as [->|Hc].
  - destruct (N.eq_dec sep sep) as [_|Hne]; [|contradiction].
    simpl. now rewrite IH.
  - destruct (N.eq_dec c sep) as [E|_]; [contradiction|].
    pose proof (split_on_not_nil sep s) as Hne.
    destruct (split_on sep s) as [|p rest]; [contradiction|].
    exact IH.
Qed.

(** X1.  [lineCount] is one more than the number of newlines of the text:
    it is never 0, the empty text has one line, and a newline at the end
    of the text counts a further, empty line. *)
Theorem lineCount_counts_newlines {CM : CaseMapping} (text : jsstring) :
  lineCount (analyzeText text) = S (count_occ N.eq_dec text LF)
  /\ lineCount (analyzeText (text ++ [LF])) = S (lineCount (analyzeText text)).
Proof.
  assert (H : forall t, lineCount (analyzeText t) = S (count_occ N.eq_dec t LF)).
  { intros t. cbn [lineCount analyzeText]. apply split_on_length. }
  split; [apply H|].
  rewrite !H, count_occ_app. simpl. lia.
Qed.

Lemma filter_split_length {A} (f : A -> bool) (l : list A) :
  length l = length (filter f l) + length (filter (fun x => negb (f x)) l).
Proof.
  induction l as [|x l IH]; [reflexivity|].
  simpl. destruct (f x); simpl; lia.
Qed.

(** X2.  The average is taken over the code units that are not whitespace:
    [avgWordLength] is the number 0 when there is no word, and otherwise
    [toFixed(2)] of the number of non-whitespace code units of the text
    over [wordCount]; [charCount] is that number plus the number of
    whitespace code units. *)
Theorem avgWordLength_counts_non_whitespace {CM : CaseMapping} (text : jsstring) :
  avgWordLength (analyzeText text)
  = (if wordCount (analyzeText text) =? 0 then Number_0
     else toFixed_2 (length (filter (fun c => negb (is_whitespace c)) text))
                    (wordCount (analyzeText text)))
  /\ charCount (analyzeText text)
     = length (filter is_whitespace text)
       + length (filter (fun c => negb (is_whitespace c)) text).
Proof.
  split.
  - rewrite avgWordLength_operands.
    destruct (analyzeText_words text) as [-> _].
    pose proof (nonempty_lengths (split_whitespace text)) as Hsum.
    unfold split_whitespace in Hsum at 2.
    rewrite split_whitespace_lengths in Hsum.
    destruct (filter Spec.nonempty (split_whitespace text)) as [|w words];
      [reflexivity|].
    cbn [length Nat.eqb]. f_equal. exact Hsum.
  - cbn [charCount analyzeText]. apply filter_split_length.
Qed.

Lemma words_none_iff_blank (text : jsstring) :
  filter Spec.nonempty (split_whitespace text) = []
  <-> forallb is_whitespace text = true.
Proof.
  pose proof (words_tokenized text) as H. split; intros E.
  - rewrite E in H. inversion H as [s Hall|]. now subst.
  - apply (tokenized_unique (s := text)); [assumption|].
    now apply Spec.tokenized_blank.
Qed.

(** X3.  The counts of [analyzeText] are ordered: there are at most as many
    unique words as words and at most as many words as non-whitespace code
    units; a text has no word exactly when all its code units are
    whitespace (the empty text included), and no unique word exactly when
    it has no word. *)
Theorem analyzeText_counts_ordered {CM : CaseMapping} (text : jsstring) :
  uniqueWords (analyzeText text) <= wordCount (analyzeText text)
  /\ wordCount (analyzeText text)
     <= length (filter (fun c => negb (is_whitespace c)) text)
  /\ (wordCount (analyzeText text) = 0 <-> forallb is_whitespace text = true)
  /\ (uniqueWords (analyzeText text) = 0 <-> wordCount (analyzeText text) = 0).
Proof.
  destruct (analyzeText_words text) as [-> ->].
  set (words := filter Spec.nonempty (split_whitespace text)).
  destruct (Set_of_spec (map (fun w => toLowerCase w) words)) as [Hnd Hin].
  repeat split.
  - rewrite <- (length_map (fun w => toLowerCase w) words).
    apply NoDup_incl_length; [assumption|]. intros x. apply Hin.
  - subst words. etransitivity; [apply nonempty_words_lengths|].
    rewrite nonempty_lengths. unfold split_whitespace.
    now rewrite split_whitespace_lengths.
  - intros E. apply words_none_iff_blank. now apply length_zero_iff_nil.
  - intros E. apply words_none_iff_blank in E. fold words in E. now rewrite E.
  - intros E. apply length_zero_iff_nil in E.
    destruct words as [|w ws]; [reflexivity|].
    exfalso. assert (Hw : In (toLowerCase w) (Set_of (map (fun w => toLowerCase w) (w :: ws)))).
    { apply Hin. now left. }
    rewrite E in Hw. destruct Hw.
  - intros E. apply length_zero_iff_nil in E. now rewrite E.
Qed.

(** *** ASCII case and the three operations *)

Ltac decide_comparisons :=
  repeat match goal with
         | |- context [N.leb ?a ?b] =>
             first [ rewrite (proj2 (N.leb_le a b)) by lia
                   | rewrite (proj2 (N.leb_gt a b)) by lia ]
         | |- context [N.eqb ?a ?b] =>
             first [ rewrite (proj2 (N.eqb_eq a b)) by lia
                   | rewrite (proj2 (N.eqb_neq a b)) by lia ]
         | |- context [N.ltb ?a ?b] =>
             first [ rewrite (proj2 (N.ltb_lt a b)) by lia
                   | rewrite (proj2 (N.ltb_ge a b)) by lia ]
         end.

Lemma ascii_upper_range (c : N) :
  ascii_upper c = true <-> (65 <= c <= 90)%N.
Proof.
  unfold ascii_upper. rewrite andb_true_iff, !N.leb_le. tauto.
Qed.

Lemma ascii_lower_range (c : N) :
  ascii_lower c = true <-> (97 <= c <= 122)%N.
Proof.
  unfold ascii_lower. rewrite andb_true_iff, !N.leb_le. tauto.
Qed.

Lemma ascii_case_cases (c : N) :
  ((65 <= c <= 90)%N /\ ascii_to_lower c = (c + 32)%N /\ ascii_to_upper c = c)
  \/ ((97 <= c <= 122)%N /\ ascii_to_lower c = c /\ ascii_to_upper c = (c - 32)%N)
  \/ (~ (65 <= c <= 90)%N /\ ~ (97 <= c <= 122)%N
      /\ ascii_to_lower c = c /\ ascii_to_upper c = c).
Proof.
  unfold ascii_to_lower, ascii_to_upper.
  destruct (ascii_upper c) eqn:Eu; destruct (ascii_lower c) eqn:El.
  - apply ascii_upper_range in Eu. apply ascii_lower_range in El. lia.
  - apply ascii_upper_range in Eu. left. tauto.
  - apply ascii_lower_range in El. right; left. tauto.
  - right; right. repeat split; try reflexivity.
    + intros H. apply ascii_upper_range in H. congruence.
    + intros H. apply ascii_lower_range in H. congruence.
Qed.

Lemma lower_upper (c : N) : ascii_to_lower (ascii_to_upper c) = ascii_to_lower c.
Proof.
  destruct (ascii_case_cases c) as [(R & L & U)|[(R & L & U)|(R1 & R2 & L & U)]];
    rewrite U; try reflexivity.
  rewrite L.
  destruct (ascii_case_cases (c - 32)) as [(R' & L' & _)|[(R' & _)|(R' & _)]]; lia.
Qed.

Lemma upper_upper (c : N) : ascii_to_upper (ascii_to_upper c) = ascii_to_upper c.
Proof.
  destruct (ascii_case_cases c) as [(R & L & U)|[(R & L & U)|(R1 & R2 & L & U)]];
    rewrite U; try assumption.
  destruct (ascii_case_cases (c - 32)) as [(R' & _ & U')|[(R' & _)|(R' & _)]];
    lia.
Qed.

Lemma lower_keeps_class (c : N) :
  is_whitespace (ascii_to_lower c) = is_whitespace c
  /\ N.eqb (ascii_to_lower c) LF = N.eqb c LF
  /\ N.eqb (ascii_to_lower c) SPACE = N.eqb c SPACE
  /\ is_a_zA_Z (ascii_to_lower c) = is_a_zA_Z c
  /\ is_ascii (ascii_to_lower c) = is_ascii c.
Proof.
  destruct (ascii_case_cases c) as [(R & L & U)|[(R & L & U)|(R1 & R2 & L & U)]];
    rewrite L; try (repeat split; reflexivity).
  unfold is_whitespace, is_a_zA_Z, ascii_lower, ascii_upper, is_ascii, LF, SPACE.
  repeat split; decide_comparisons; reflexivity.
Qed.

Lemma upper_keeps_space (c : N) :
  N.eqb (ascii_to_upper c) SPACE = N.eqb c SPACE.
Proof.
  destruct (ascii_case_cases c) as [(R & L & U)|[(R & L & U)|(R1 & R2 & L & U)]];
    rewrite U; try reflexivity.
  unfold SPACE. decide_comparisons. reflexivity.
Qed.

Lemma split_on_map (f : N -> N) (sep : N) (s : text) :
  (forall c, N.eqb (f c) sep = N.eqb c sep) ->
  split_on sep (map f s) = map (map f) (split_on sep s).
Proof.
  intros Hf. induction s as [|c s IH]; [reflexivity|].
  simpl. rewrite Hf, IH.
  destruct (N.eqb c sep); [reflexivity|].
  pose proof (split_on_not_nil sep s) as Hne.
  destruct (split_on sep s); [contradiction|reflexivity].
Qed.

Lemma split_whitespace_map (f : N -> N) (in_run : bool) (s : jsstring) :
  (forall c, is_whitespace (f c) = is_whitespace c) ->
  split_whitespace_from in_run (map f s)
  = map (map f) (split_whitespace_from in_run s).
Proof.
  intros Hf. revert in_run. induction s as [|c s IH]; intros in_run; [reflexivity|].
  simpl. rewrite Hf, !IH.
  destruct (is_whitespace c); [destruct in_run; reflexivity|].
  pose proof (split_whitespace_from_not_nil false s) as Hne.
  destruct (split_whitespace_from false s); [contradiction|reflexivity].
Qed.

Lemma join_map (f : N -> N) (sep : N) (pieces : list text) :
  map f (join [sep] pieces) = join [f sep] (map (map f) pieces).
Proof.
  destruct pieces as [|p rest]; [reflexivity|].
  change (map (map f) (p :: rest)) with (map f p :: map (map f) rest).
  rewrite !join_flat_map, map_app. f_equal.
  induction rest as [|q rest IH]; [reflexivity|].
  simpl. now rewrite map_app, IH.
Qed.

Lemma filter_nonempty_map (f : N -> N) (pieces : list jsstring) :
  filter Spec.nonempty (map (map f) pieces)
  = map (map f) (filter Spec.nonempty pieces).
Proof.
  induction pieces as [|p pieces IH]; [reflexivity|].
  simpl. destruct p as [|c p]; simpl; now rewrite IH.
Qed.

(** With the ASCII case conversion, [analyzeText] does not see the case of
    ASCII letters. *)
Lemma analyzeText_lower (text : jsstring) :
  @analyzeText ascii_case (map ascii_to_lower text) = @analyzeText ascii_case text.
Proof.
  pose proof (fun c => proj1 (lower_keeps_class c)) as Hws.
  pose proof (fun c => proj1 (proj2 (lower_keeps_class c))) as Hlf.
  unfold analyzeText.
  change (fun word : jsstring => 0 <? length word) with Spec.nonempty.
  unfold split_whitespace.
  rewrite (@split_whitespace_map ascii_to_lower false text Hws).
  rewrite (@split_on_map ascii_to_lower LF text Hlf).
  rewrite filter_nonempty_map, !length_map, !fold_left_lengths.
  rewrite !map_map.
  rewrite (map_ext (fun x => length (map ascii_to_lower x)) (@length N))
    by (intros; apply length_map).
  f_equal. f_equal. f_equal. apply map_ext. intros w. simpl.
  rewrite map_map. apply map_ext. apply ascii_to_lower_idem.
Qed.

Lemma analyzeText_case_blind (a b : jsstring) :
  map ascii_to_lower a = map ascii_to_lower b ->
  @analyzeText ascii_case a = @analyzeText ascii_case b.
Proof.
  intros E. rewrite <- (analyzeText_lower a), <- (analyzeText_lower b).
  now rewrite E.
Qed.

Lemma forallb_is_ascii_lower (s : text) :
  forallb is_ascii (map ascii_to_lower s) = forallb is_ascii s.
Proof.
  induction s as [|c s IH]; [reflexivity|].
  simpl. rewrite IH. f_equal. apply lower_keeps_class.
Qed.

Lemma is_ascii_case_variant (a b : text) :
  map ascii_to_lower a = map ascii_to_lower b ->
  forallb is_ascii b = true -> forallb is_ascii a = true.
Proof.
  intros E H. rewrite <- forallb_is_ascii_lower, E, forallb_is_ascii_lower.
  exact H.
Qed.

(** With the ASCII case conversion, [capitalized] is the text up to the
    case of its ASCII letters. *)
Lemma capitalized_lower (text : jsstring) :
  map ascii_to_lower (capitalized (@transformText ascii_case text))
  = map ascii_to_lower text.
Proof.
  cbn [capitalized transformText toUpperCase toLowerCase ascii_case].
  rewrite join_map.
  change (ascii_to_lower SPACE) with SPACE.
  rewrite <- (join_split_on SPACE text) at 2.
  rewrite join_map. change (ascii_to_lower SPACE) with SPACE.
  f_equal. rewrite map_map. apply map_ext. intros word.
  destruct word as [|c word]; [reflexivity|].
  unfold charAt, slice. simpl.
  rewrite lower_upper. f_equal.
  rewrite map_map. apply map_ext. apply ascii_to_lower_idem.
Qed.

Lemma title_keeps_space (word : jsstring) :
  ~ In SPACE word ->
  ~ In SPACE (@toUpperCase ascii_case (charAt word 0)
              ++ @toLowerCase ascii_case (slice word 1)).
Proof.
  intros H Hin. apply H. clear H.
  destruct word as [|c word]; [destruct Hin|].
  unfold charAt, slice in Hin. simpl in Hin.
  destruct Hin as [E|Hin].
  - left. pose proof (upper_keeps_space c) as Hc. rewrite E in Hc.
    symmetry in Hc. now apply N.eqb_eq in Hc.
  - right. apply in_map_iff in Hin as (d & E & Hd).
    destruct (lower_keeps_class d) as (_ & _ & Hs & _). rewrite E in Hs.
    symmetry in Hs. apply N.eqb_eq in Hs. now subst.
Qed.

Lemma title_twice (word : jsstring) :
  let title := fun w => @toUpperCase ascii_case (charAt w 0)
                        ++ @toLowerCase ascii_case (slice w 1) in
  title (title word) = title word.
Proof.
  destruct word as [|c word]; [reflexivity|].
  unfold charAt, slice. simpl. rewrite upper_upper. f_equal.
  rewrite map_map. apply map_ext. apply ascii_to_lower_idem.
Qed.

Lemma capitalized_twice (text : jsstring) :
  capitalized (@transformText ascii_case
                 (capitalized (@transformText ascii_case text)))
  = capitalized (@transformText ascii_case text).
Proof.
  cbn [capitalized transformText].
  rewrite split_on_join.
  - rewrite map_map. f_equal. apply map_ext. apply title_twice.
  - pose proof (split_on_not_nil SPACE text).
    destruct (split_on SPACE text); [contradiction|discriminate].
  - apply Forall_map. eapply Forall_impl; [|apply split_on_pieces].
    intros word. apply title_keeps_space.
Qed.

Section CaseVariants.
Context {CM : CaseMapping} (laws : CaseMappingLaws CM).

(** X4.  For an ASCII text, the analysis does not depend on the case of the
    letters: the uppercase, lowercase and capitalized variants that
    [transformText] returns all have the analysis of the text itself. *)
Theorem analyzeText_of_case_variants (text : jsstring) :
  forallb is_ascii text = true ->
  analyzeText (uppercase (transformText text)) = analyzeText text
  /\ analyzeText (lowercase (transformText text)) = analyzeText text
  /\ analyzeText (capitalized (transformText text)) = analyzeText text.
Proof.
  intros H.
  assert (Hvariant : forall v,
             map ascii_to_lower v = map ascii_to_lower text ->
             analyzeText v = analyzeText text).
  { intros v E.
    rewrite (analyzeText_ascii laws v) by (now apply (is_ascii_case_variant v text)).
    rewrite (analyzeText_ascii laws text) by assumption.
    now apply analyzeText_case_blind. }
  rewrite (transformText_ascii laws text H).
  repeat split; apply Hvariant.
  - cbn [uppercase transformText toUpperCase ascii_case].
    rewrite map_map. apply map_ext. apply lower_upper.
  - cbn [lowercase transformText toLowerCase ascii_case].
    rewrite map_map. apply map_ext. apply ascii_to_lower_idem.
  - apply capitalized_lower.
Qed.

(** X7.  For an ASCII text, [capitalized] differs from the text in the case
    of letters only: both have the same lowercase form, hence the same
    length, the same spaces and the same line breaks. *)
Theorem capitalized_up_to_case (text : jsstring) :
  forallb is_ascii text = true ->
  toLowerCase (capitalized (transformText text)) = toLowerCase text
  /\ length (capitalized (transformText text)) = length text.
Proof.
  intros H. rewrite (transformText_ascii laws text H).
  pose proof (capitalized_lower text) as E.
  split.
  - rewrite toLowerCase_ascii
      by (now apply (is_ascii_case_variant _ text)).
    rewrite (toLowerCase_ascii text H). exact E.
  - apply (f_equal (@length N)) in E. now rewrite !length_map in E.
Qed.

(** X8.  For an ASCII text, capitalizing is idempotent: the capitalized
    variant of the capitalized variant is the capitalized variant. *)
Theorem capitalized_idempotent (text : jsstring) :
  forallb is_ascii text = true ->
  capitalized (transformText (capitalized (transformText text)))
  = capitalized (transformText text).
Proof.
  intros H. rewrite (transformText_ascii laws text H).
  rewrite (transformText_ascii laws).
  - apply capitalized_twice.
  - apply (is_ascii_case_variant _ text); [apply capitalized_lower|assumption].
Qed.

End CaseVariants.

Lemma analyzeText_of_case_variants_witness :
  @analyzeText ascii_case (capitalized (@transformText ascii_case (str "hello big WORLD")))
  = @analyzeText ascii_case (str "hello big WORLD").
Proof.
  apply (analyzeText_of_case_variants ascii_case_laws (str "hello big WORLD")).
  reflexivity.
Defined.

Lemma capitalized_up_to_case_witness :
  length (capitalized (@transformText ascii_case (str "hello big WORLD")))
  = length (str "hello big WORLD").
Proof.
  apply (capitalized_up_to_case ascii_case_laws (str "hello big WORLD")).
  reflexivity.
Defined.

Lemma capitalized_idempotent_witness :
  capitalized (@transformText ascii_case
                 (capitalized (@transformText ascii_case (str "hello big WORLD"))))
  = capitalized (@transformText ascii_case (str "hello big WORLD")).
Proof.
  apply (capitalized_idempotent ascii_case_laws (str "hello big WORLD")).
  reflexivity.
Defined.

(** *** [validateText] *)

Lemma validateText_depends_on (a b : jsstring) :
  length a = length b ->
  existsb is_a_zA_Z a = existsb is_a_zA_Z b ->
  validateText a = validateText b.
Proof. intros El Ee. unfold validateText. now rewrite El, Ee. Qed.

(** X5.  A text is valid exactly when it has at most 1000 code units and an
    ASCII letter among them.  The empty text is reported twice (as empty
    and as without letters), and no text has more than two issues: one
    that is too long is not empty. *)
Theorem validateText_valid_iff (text : jsstring) :
  isValid (validateText text)
  = ((length text <=? 1000) && existsb is_a_zA_Z text)%bool
  /\ length (issues (validateText text)) <= 2
  /\ (length text = 0 <-> 
      issues (validateText text)
      = [str "Text is empty"; str "No alphabetic characters found"]).
Proof.
  destruct text as [|c text].
  - repeat split; reflexivity.
  - unfold validateText. cbn [length Nat.eqb app isValid issues].
    destruct (Nat.ltb_spec 1000 (S (length text))) as [Hl|Hl];
      destruct (Nat.leb_spec (S (length text)) 1000) as [Hl'|Hl']; try lia;
      destruct (existsb is_a_zA_Z (c :: text)); cbn [negb app length Nat.eqb andb];
      (repeat split; try reflexivity; try lia; try discriminate;
       intros E; vm_compute in E; discriminate E).
Qed.

Lemma existsb_map_class (f : N -> N) (p : N -> bool) (s : text) :
  (forall c, p (f c) = p c) -> existsb p (map f s) = existsb p s.
Proof.
  intros H. induction s as [|c s IH]; [reflexivity|].
  simpl. now rewrite H, IH.
Qed.

(** X6.  Validation does not depend on the order of the code units nor, for
    an ASCII text, on the case of the letters: the reversed variant of
    every text, and the uppercase, lowercase and capitalized variants of an
    ASCII text, validate as the text itself does. *)
Theorem validateText_of_variants {CM : CaseMapping} (laws : CaseMappingLaws CM)
    (text : jsstring) :
  validateText (reversed (transformText text)) = validateText text
  /\ (forallb is_ascii text = true ->
      validateText (uppercase (transformText text)) = validateText text
      /\ validateText (lowercase (transformText text)) = validateText text
      /\ validateText (capitalized (transformText text)) = validateText text).
Proof.
  split.
  - cbn [reversed transformText]. rewrite reverse_units.
    apply validateText_depends_on; [apply length_rev|apply existsb_rev].
  - intros H.
    assert (Hvariant : forall v,
               map ascii_to_lower v = map ascii_to_lower text ->
               validateText v = validateText text).
    { intros v E. apply validateText_depends_on.
      - apply (f_equal (@length N)) in E. now rewrite !length_map in E.
      - rewrite <- (existsb_map_class ascii_to_lower is_a_zA_Z v)
          by (intros; apply lower_keeps_class).
        rewrite E. apply existsb_map_class. intros; apply lower_keeps_class. }
    rewrite (transformText_ascii laws text H).
    repeat split; apply Hvariant.
    + cbn [uppercase transformText toUpperCase ascii_case].
      rewrite map_map. apply map_ext. apply lower_upper.
    + cbn [lowercase transformText toLowerCase ascii_case].
      rewrite map_map. apply map_ext. apply ascii_to_lower_idem.
    + apply capitalized_lower.
Qed.

Lemma validateText_of_variants_witness :
  validateText (uppercase (@transformText ascii_case (str "abc 123")))
  = validateText (str "abc 123").
Proof.
  apply (validateText_of_variants ascii_case_laws (str "abc 123")).
  reflexivity.
Defined.

(** *** The switch and what [run] does around it *)

Section SwitchLog.
Context {CM : CaseMapping}.

Lemma known_selector (selector : jsstring) :
  In selector known_operations
  <-> (Text.eqb selector (str "analyze")
       || Text.eqb selector (str "transform")
       || Text.eqb selector (str "validate"))%bool = true.
Proof.
  rewrite !orb_true_iff, !text_eqb_eq. unfold known_operations. simpl.
  intuition congruence.
Qed.

Lemma dispatch_events (inputText operationType : jsstring) (log : list event) :
  exists r events,
    dispatch inputText operationType log = (Returned r, log ++ events)
    /\ snd (dispatch inputText operationType []) = events
    /\ (forall e, In e events ->
                  (exists m, e = info m) \/ (exists m, e = warning m))
    /\ ((exists m, In (warning m) events)
        <-> ~ In (toLowerCase operationType) known_operations).
Proof.
  pose proof (known_selector (toLowerCase operationType)) as Hk.
  unfold dispatch.
  destruct (Text.eqb (toLowerCase operationType) (str "analyze"));
    [|destruct (Text.eqb (toLowerCase operationType) (str "transform"));
      [|destruct (Text.eqb (toLowerCase operationType) (str "validate"))]];
    cbn [orb] in Hk;
    cbv [bind emit ret]; cbn [snd app]; repeat rewrite <- app_assoc;
    cbn [app]; eexists; eexists;
    (split; [reflexivity|]); (split; [reflexivity|]);
    (split;
     [ intros e He; cbn [In] in He;
       repeat (destruct He as [<-|He]; [first [left; eexists; reflexivity
                                              |right; eexists; reflexivity]|]);
       destruct He
     | split;
       [ intros [m Hm]; cbn [In] in Hm;
         repeat (destruct Hm as [Hm|Hm]; [try discriminate Hm|]);
         try (destruct Hm);
         try (intros Hin; apply Hk in Hin; discriminate Hin)
       | intros H; first [ exfalso; apply H; apply Hk; reflexivity
                         | eexists; left; reflexivity ] ] ]).
Qed.

(** X9.  The switch only appends to the log, and what it appends are
    [info] lines and at most a warning, never an output or a failure; a
    warning is among them exactly when the lowercase form of the operation
    type is none of the three known names. *)
Theorem dispatch_warns_iff_unknown (inputText operationType : jsstring)
    (log : list event) :
  snd (dispatch inputText operationType log)
  = log ++ snd (dispatch inputText operationType [])
  /\ (forall e, In e (snd (dispatch inputText operationType [])) ->
                (exists m, e = info m) \/ (exists m, e = warning m))
  /\ ((exists m, In (warning m) (snd (dispatch inputText operationType [])))
      <-> ~ In (toLowerCase operationType) known_operations).
Proof.
  destruct (dispatch_events inputText operationType log)
    as (r & events & E & -> & Hkind & Hwarn).
  rewrite E. repeat split; try assumption; apply Hwarn.
Qed.

(** X10.  [run] fails before the switch exactly when [input-text] is
    missing or empty: the handler then reports that the input is required
    and logs the stack of the error, when the engine has recorded one, as a
    [debug] line, and there is no result.  Otherwise [run] logs the two
    inputs as the switch will see them (the text trimmed, [analyze] for a
    missing operation type) and the context, runs the switch on them, ends
    with its result and reports no failure. *)
Theorem run_switch_fails_iff_no_text {JS : Engine}
    (inputs : jsstring -> option jsstring) (context : github_context)
    (log : list event) :
  match inputs (str "input-text") with
  | Some (u :: value) =>
      let inputText := trim (u :: value) in
      let operationType :=
        or_else (trim (match inputs (str "operation-type") with
                       | Some v => v
                       | None => []
                       end)) (str "analyze") in
      let before :=
        [info info_rule;
         info (utf16 [128229%N] ++ str " Inputs received:");
         info (str "   input-text: " ++ [34%N] ++ inputText ++ [34%N]);
         info (str "   operation-type: " ++ [34%N] ++ operationType ++ [34%N]);
         info [];
         info info_rule;
         info (utf16 [127760%N] ++ str " GitHub Context Information:");
         info (str "   Repository: " ++ owner context ++ str "/" ++ repo context);
         info (str "   Event: " ++ eventName context);
         info (str "   Workflow: " ++ workflow context);
         info (str "   Actor: " ++ actor context);
         info (str "   SHA: " ++ firstn 7 (sha context));
         info (str "   Ref: " ++ ref context);
         info [];
         debug (str "Full context payload: " ++ payload context);
         info info_rule;
         info (utf16 [128295%N] ++ str " Performing text analysis...");
         info []] in
      exists r events,
        dispatch inputText operationType (log ++ before)
        = (Returned r, (log ++ before) ++ events)
        /\ run_switch inputs context log
           = (Returned (Some r), log ++ before ++ events)
        /\ forall m, ~ In (setFailed m) (before ++ events)
  | _ =>
      run_switch inputs context log
      = (Returned None,
         log ++ setFailed (str "Action failed with error: "
                           ++ str "Input required and not supplied: input-text")
             :: match Error_stack (str "Input required and not supplied: input-text")
                with
                | [] => []
                | trace => [debug (str "Stack trace: " ++ trace)]
                end)
  end.
Proof.
  destruct (inputs (str "input-text")) as [[|u value]|] eqn:E.
  - apply run_switch_without_text. now right.
  - cbv zeta.
    match goal with
    | |- context [dispatch ?t ?o ?l] =>
        destruct (dispatch_events t o l) as (r & events & Ed & _ & Hkind & _)
    end.
    exists r, events. split; [exact Ed|]. split.
    + unfold run_switch, catch, bind, getInput. rewrite E.
      cbn [length Nat.eqb andb throw ret]. unfold emit. cbv zeta.
      repeat rewrite <- app_assoc. cbn [app].
      cbn [app] in Ed. rewrite Ed. unfold ret. now rewrite <- app_assoc.
    + intros m Hm. apply in_app_or in Hm as [Hm|Hm].
      * cbn [In] in Hm.
        repeat (destruct Hm as [Hm|Hm]; [discriminate Hm|]). destruct Hm.
      * destruct (Hkind _ Hm) as [[m' H]|[m' H]]; discriminate H.
  - apply run_switch_without_text. now left.
Qed.

(** X11.  The text reaches the switch without its leading and trailing
    whitespace, and an [operation-type] that is missing or blank selects
    [analyze] silently: the result is the analysis of the trimmed text and
    no warning is logged. *)
Theorem run_switch_defaults {JS : Engine} (laws : CaseMappingLaws CM)
    (inputs : jsstring -> option jsstring) (context : github_context)
    (value : jsstring) (log : list event) :
  inputs (str "input-text") = Some value ->
  value <> [] ->
  trim (match inputs (str "operation-type") with Some o => o | None => [] end) = [] ->
  exists events,
    run_switch inputs context log
    = (Returned (Some (Analysis (analyzeText (trim value)),
                       {| type := str "analysis";
                          spread := Analysis (analyzeText (trim value)) |})),
       log ++ events)
    /\ forall m, ~ In (warning m) events.
Proof.
  intros E Hne Eop.
  destruct (@run_switch_with_text CM JS inputs context value log E Hne)
    as (before & Hbefore & Hrun).
  rewrite Eop in Hrun. cbn [or_else] in Hrun.
  pose proof (dispatch_analyze laws (trim value) (log ++ before)) as Hres.
  destruct (dispatch_events (trim value) (str "analyze") (log ++ before))
    as (r & events & Ed & _ & _ & Hwarn).
  rewrite Ed in Hres. cbn [fst] in Hres. injection Hres as ->.
  exists (before ++ events). split; [now apply Hrun|].
  intros m Hm. apply in_app_or in Hm as [Hm|Hm].
  - destruct (Hbefore _ Hm) as [[m' H]|[m' H]]; discriminate H.
  - apply (proj1 Hwarn); [now exists m|].
    rewrite (toLowerCase_known laws); simpl; tauto.
Qed.

End SwitchLog.

Lemma run_switch_defaults_witness :
  exists events,
    @run_switch ascii_case plain_engine
      (fun name => if Text.eqb name (str "input-text") then Some (str "  hi there ") else None)
      push_context []
    = (Returned (Some (Analysis (@analyzeText ascii_case (str "hi there")),
                       {| type := str "analysis";
                          spread := Analysis (@analyzeText ascii_case (str "hi there")) |})),
       [] ++ events)
    /\ forall m, ~ In (warning m) events.
Proof.
  apply (@run_switch_defaults ascii_case plain_engine ascii_case_laws
           (fun name => if Text.eqb name (str "input-text")
                        then Some (str "  hi there ") else None)
           push_context (str "  hi there ")).
  - reflexivity.
  - discriminate.
  - reflexivity.
Defined.

(** *** The branches of the [case] statement *)

Lemma digits_of_uint (d : Decimal.uint) :
  Forall (fun c => (48 <= c <= 57)%N)
         (str (DecimalString.NilEmpty.string_of_uint d)).
Proof.
  unfold str. induction d; simpl; constructor; try assumption; lia.
Qed.

Lemma digits_of_nat (n : nat) :
  Forall (fun c => (48 <= c <= 57)%N) (of_nat n).
Proof.
  unfold of_nat, DecimalString.NilZero.string_of_uint.
  pose proof (digits_of_uint (Nat.to_uint n)) as H.
  destruct (Nat.to_uint n); try exact H.
  constructor; [split; cbv; discriminate|constructor].
Qed.

Lemma count_words_snoc {C : Container} (in_word : bool) (input : shstring) :
  count_words_from in_word (input ++ [LF]) = count_words_from in_word input.
Proof.
  revert in_word. induction input as [|c input IH]; intros in_word; [reflexivity|].
  simpl. destruct (isspace c); [|destruct (iswprint c); [destruct (iswspace c)|]];
    now rewrite IH.
Qed.

(** The word count as the script obtains it from [wc -w]. *)
Lemma word_count_pipeline {C : Container} (input : shstring) :
  command_substitution (tr_d_space (wc_w input))
  = of_nat (count_words_from false input).
Proof.
  unfold wc_w, tr_d_space.
  pose proof (digits_of_nat (count_words_from false input)) as Hd.
  rewrite filter_app.
  replace (filter (fun c => negb (N.eqb c SPACE)) (of_nat (count_words_from false input)))
    with (of_nat (count_words_from false input)).
  - change (filter (fun c => negb (N.eqb c SPACE)) [LF]) with [LF].
    rewrite command_substitution_snoc. apply command_substitution_id.
    destruct (of_nat (count_words_from false input)) as [|c l] eqn:E;
      [discriminate|].
    intros Hl. rewrite Forall_forall in Hd.
    specialize (Hd LF). rewrite <- Hl in Hd.
    assert (48 <= LF <= 57)%N; [|unfold LF in *; lia].
    rewrite <- Hl. apply Hd. apply last_in. discriminate.
  - symmetry. apply forallb_filter_id. apply forallb_forall.
    intros c Hc. rewrite Forall_forall in Hd. specialize (Hd c Hc).
    apply negb_true_iff, N.eqb_neq. unfold SPACE. lia.
Qed.

Ltac run_branch :=
  unfold process;
  repeat match goal with
         | |- context [Text.eqb (str ?a) (str ?b)] =>
             let v := eval vm_compute in (Text.eqb (str a) (str b)) in
             change (Text.eqb (str a) (str b)) with v
         end;
  cbv iota; unfold bind;
  match goal with
  | |- context [print_colored ?c ?col ?msg ?l] =>
      destruct (print_colored_returns c col msg l) as [printed ->]
  end;
  reflexivity.

Lemma process_count {C : Container} (COLOR_OUTPUT MESSAGE : shstring) (log : list line) :
  fst (process COLOR_OUTPUT MESSAGE (str "count") log)
  = Returned (str "Characters: " ++ of_nat (length MESSAGE) ++ str ", Words: "
              ++ command_substitution (tr_d_space (wc_w (echo_output MESSAGE)))).
Proof. run_branch. Qed.

Lemma process_uppercase {C : Container}
    (COLOR_OUTPUT MESSAGE : shstring) (log : list line) :
  fst (process COLOR_OUTPUT MESSAGE (str "uppercase") log)
  = Returned (command_substitution (tr_lower_upper (echo_output MESSAGE))).
Proof. run_branch. Qed.

Lemma process_lowercase {C : Container}
    (COLOR_OUTPUT MESSAGE : shstring) (log : list line) :
  fst (process COLOR_OUTPUT MESSAGE (str "lowercase") log)
  = Returned (command_substitution (tr_upper_lower (echo_output MESSAGE))).
Proof. run_branch. Qed.

(** What the [count] branch reports for a message that [echo] prints as it
    is. *)
Lemma count_branch {C : Container} (COLOR_OUTPUT MESSAGE : shstring) (log : list line) :
  is_echo_option MESSAGE = false ->
  fst (process COLOR_OUTPUT MESSAGE (str "count") log)
  = Returned (str "Characters: " ++ of_nat (length MESSAGE) ++ str ", Words: "
              ++ of_nat (count_words_from false MESSAGE)).
Proof.
  intros H. rewrite process_count, word_count_pipeline.
  now rewrite (echo_output_text _ H), count_words_snoc.
Qed.

(** X12.  For a message that [echo] prints as it is, the [count] branch
    reports the number of units of the message (its characters, and the
    bytes that are none) and its number of words as [wc -w] counts them,
    both in decimal: a word begins at a printable character that is not
    white space and ends at the next blank or printable white space, and a
    unit that is neither printable nor blank counts for nothing.  The
    newline that [echo] adds and the padding of [wc] do not show. *)
Theorem process_count_result {C : Container}
    (COLOR_OUTPUT MESSAGE : shstring) (log : list line) :
  is_echo_option MESSAGE = false ->
  fst (process COLOR_OUTPUT MESSAGE (str "count") log)
  = Returned (str "Characters: " ++ of_nat (length MESSAGE) ++ str ", Words: "
              ++ of_nat (count_words_from false MESSAGE)).
Proof.
  intros H. rewrite process_count, word_count_pipeline.
  now rewrite (echo_output_text _ H), count_words_snoc.
Qed.

Lemma process_count_result_witness :
  fst (@process posix (str "true") (str "a " ++ [1%N] ++ str " big" ++ [127%N] ++ str "  world ")
         (str "count") [])
  = Returned (str "Characters: " ++ of_nat 16 ++ str ", Words: " ++ of_nat 3).
Proof.
  apply (@process_count_result posix (str "true")
           (str "a " ++ [1%N] ++ str " big" ++ [127%N] ++ str "  world ") []).
  reflexivity.
Defined.

Lemma echo_option_output (w : shstring) :
  is_echo_option w = true -> echo_output w = [] \/ echo_output w = [LF].
Proof.
  intros H. unfold echo_output. rewrite H.
  destruct (existsb (N.eqb 110) w); tauto.
Qed.

(** X13.  A message that is a word of options for [echo] (a hyphen followed
    by letters [n], [e], [E] only) is not printed into the pipelines: the
    [reverse], [uppercase] and [lowercase] branches leave [RESULT] empty
    and the [count] branch reports 0 words, whatever the length of the
    message; only the [echo] branch, which does not call [echo] on it,
    returns the message. *)
Theorem process_of_echo_option {C : Container}
    (COLOR_OUTPUT MESSAGE : shstring) (log : list line) :
  is_echo_option MESSAGE = true ->
  fst (process COLOR_OUTPUT MESSAGE (str "reverse") log) = Returned []
  /\ fst (process COLOR_OUTPUT MESSAGE (str "uppercase") log) = Returned []
  /\ fst (process COLOR_OUTPUT MESSAGE (str "lowercase") log) = Returned []
  /\ fst (process COLOR_OUTPUT MESSAGE (str "count") log)
     = Returned (str "Characters: " ++ of_nat (length MESSAGE)
                 ++ str ", Words: " ++ of_nat 0)
  /\ fst (process COLOR_OUTPUT MESSAGE (str "echo") log) = Returned MESSAGE.
Proof.
  intros H.
  rewrite process_reverse, process_uppercase, process_lowercase, process_count,
    process_echo, word_count_pipeline.
  destruct (echo_option_output _ H) as [-> | ->]; repeat split; reflexivity.
Qed.

Lemma process_of_echo_option_witness :
  fst (@process posix (str "true") (str "-ne") (str "reverse") []) = Returned []
  /\ fst (@process posix (str "true") (str "-ne") (str "uppercase") []) = Returned []
  /\ fst (@process posix (str "true") (str "-ne") (str "lowercase") []) = Returned []
  /\ fst (@process posix (str "true") (str "-ne") (str "count") [])
     = Returned (str "Characters: " ++ of_nat 3 ++ str ", Words: " ++ of_nat 0)
  /\ fst (@process posix (str "true") (str "-ne") (str "echo") [])
     = Returned (str "-ne").
Proof.
  apply (@process_of_echo_option posix (str "true") (str "-ne") []). reflexivity.
Defined.

Lemma command_substitution_map (f : N -> N) (output : shstring) :
  (forall c, N.eqb (f c) LF = N.eqb c LF) ->
  command_substitution (map f output) = map f (command_substitution output).
Proof.
  intros Hf. induction output as [|c output IH]; [reflexivity|].
  simpl. rewrite IH, Hf.
  destruct (command_substitution output); simpl; [|reflexivity].
  destruct (N.eqb c LF); reflexivity.
Qed.

Lemma command_substitution_last (output : shstring) :
  last (command_substitution output) 0%N <> LF.
Proof.
  induction output as [|c output IH]; [discriminate|].
  simpl. destruct (command_substitution output) as [|k kept].
  - destruct (N.eqb_spec c LF); [discriminate|assumption].
  - exact IH.
Qed.

Lemma command_substitution_idem (output : shstring) :
  command_substitution (command_substitution output) = command_substitution output.
Proof. apply command_substitution_id, command_substitution_last. Qed.

Lemma upper_keeps_LF (c : N) : N.eqb (ascii_to_upper c) LF = N.eqb c LF.
Proof.
  destruct (ascii_case_cases c) as [(R & L & U)|[(R & L & U)|(R1 & R2 & L & U)]];
    rewrite U; try reflexivity.
  unfold LF. decide_comparisons. reflexivity.
Qed.

Lemma lower_keeps_LF (c : N) : N.eqb (ascii_to_lower c) LF = N.eqb c LF.
Proof. apply lower_keeps_class. Qed.

Lemma upper_lower (c : N) : ascii_to_upper (ascii_to_lower c) = ascii_to_upper c.
Proof.
  destruct (ascii_case_cases c) as [(R & L & U)|[(R & L & U)|(R1 & R2 & L & U)]];
    rewrite L; try reflexivity.
  rewrite U.
  destruct (ascii_case_cases (c + 32)) as [(R' & _)|[(R' & _ & U')|(_ & R' & _)]];
    lia.
Qed.

Lemma case_pipeline (f : N -> N) (MESSAGE : shstring) :
  (forall c, N.eqb (f c) LF = N.eqb c LF) ->
  is_echo_option MESSAGE = false ->
  command_substitution (map f (echo_output MESSAGE))
  = map f (command_substitution MESSAGE).
Proof.
  intros Hf H. rewrite (echo_output_text _ H), map_app.
  change (map f [LF]) with [f LF].
  replace (f LF) with LF
    by (symmetry; apply N.eqb_eq; rewrite Hf; apply N.eqb_refl).
  rewrite command_substitution_snoc. now apply command_substitution_map.
Qed.

(** What the two [tr] branches return for a message that [echo] prints as
    it is. *)
Lemma case_branches {C : Container} (COLOR_OUTPUT MESSAGE : shstring) (log : list line) :
  is_echo_option MESSAGE = false ->
  fst (process COLOR_OUTPUT MESSAGE (str "uppercase") log)
  = Returned (map ascii_to_upper (command_substitution MESSAGE))
  /\ fst (process COLOR_OUTPUT MESSAGE (str "lowercase") log)
     = Returned (map ascii_to_lower (command_substitution MESSAGE)).
Proof.
  intros H. rewrite process_uppercase, process_lowercase.
  unfold tr_lower_upper, tr_upper_lower.
  rewrite (case_pipeline _ _ upper_keeps_LF H).
  now rewrite (case_pipeline _ _ lower_keeps_LF H).
Qed.

(** X14.  For a message that [echo] prints as it is, the [uppercase] and
    [lowercase] branches return the message without its trailing newlines,
    every ASCII letter mapped to the other case and every other character
    kept. *)
Theorem process_case_result {C : Container}
    (COLOR_OUTPUT MESSAGE : shstring) (log : list line) :
  is_echo_option MESSAGE = false ->
  fst (process COLOR_OUTPUT MESSAGE (str "uppercase") log)
  = Returned (map ascii_to_upper (command_substitution MESSAGE))
  /\ fst (process COLOR_OUTPUT MESSAGE (str "lowercase") log)
     = Returned (map ascii_to_lower (command_substitution MESSAGE)).
Proof.
  intros H. rewrite process_uppercase, process_lowercase.
  unfold tr_lower_upper, tr_upper_lower.
  rewrite (case_pipeline _ _ upper_keeps_LF H).
  now rewrite (case_pipeline _ _ lower_keeps_LF H).
Qed.

Lemma process_case_result_witness :
  fst (@process posix (str "true") (str "Hello, World 1" ++ [LF]) (str "uppercase") [])
  = Returned (map ascii_to_upper (command_substitution (str "Hello, World 1" ++ [LF])))
  /\ fst (@process posix (str "true") (str "Hello, World 1" ++ [LF]) (str "lowercase") [])
     = Returned (map ascii_to_lower (command_substitution (str "Hello, World 1" ++ [LF]))).
Proof.
  apply (@process_case_result posix (str "true") (str "Hello, World 1" ++ [LF]) []).
  reflexivity.
Defined.

(** X15.  Changing case is idempotent and the last change wins, as long as
    [echo] prints what it is given: if neither the message nor the result
    of the first run is a word of options, running [uppercase] on the
    result of [uppercase] (or [lowercase] on that of [lowercase]) returns
    that result, and [uppercase] after [lowercase] returns what
    [uppercase] returns on the message. *)
Theorem process_case_twice {C : Container}
    (COLOR_OUTPUT MESSAGE : shstring) (log log' : list line) :
  is_echo_option MESSAGE = false ->
  is_echo_option (map ascii_to_upper (command_substitution MESSAGE)) = false ->
  is_echo_option (map ascii_to_lower (command_substitution MESSAGE)) = false ->
  fst (process COLOR_OUTPUT (map ascii_to_upper (command_substitution MESSAGE))
         (str "uppercase") log')
  = fst (process COLOR_OUTPUT MESSAGE (str "uppercase") log)
  /\ fst (process COLOR_OUTPUT (map ascii_to_lower (command_substitution MESSAGE))
            (str "lowercase") log')
     = fst (process COLOR_OUTPUT MESSAGE (str "lowercase") log)
  /\ fst (process COLOR_OUTPUT (map ascii_to_lower (command_substitution MESSAGE))
            (str "uppercase") log')
     = fst (process COLOR_OUTPUT MESSAGE (str "uppercase") log).
Proof.
  intros H Hu Hl.
  destruct (case_branches COLOR_OUTPUT MESSAGE log H) as [-> ->].
  destruct (case_branches COLOR_OUTPUT _ log' Hu) as [-> _].
  destruct (case_branches COLOR_OUTPUT _ log' Hl) as [-> ->].
  rewrite !(command_substitution_map _ _ upper_keeps_LF).
  rewrite !(command_substitution_map _ _ lower_keeps_LF).
  rewrite !command_substitution_idem, !map_map.
  repeat split; f_equal; apply map_ext; intros c.
  - apply upper_upper.
  - apply ascii_to_lower_idem.
  - apply upper_lower.
Qed.

Lemma process_case_twice_witness :
  fst (@process posix (str "true") (map ascii_to_upper (command_substitution (str "Hello")))
         (str "uppercase") [])
  = fst (@process posix (str "true") (str "Hello") (str "uppercase") []).
Proof.
  apply (@process_case_twice posix (str "true") (str "Hello") [] []); reflexivity.
Defined.

(** X17.  The script takes its first argument as the message and stops with
    status 1, after the error command, when there is none or it is empty;
    an argument that is missing or empty stands for [echo] (the process
    type) and for [true] (the colour switch), so that a message alone is
    echoed, in colour. *)
Theorem entrypoint_case_arguments {C : Container}
    (MESSAGE PROCESS_TYPE COLOR_OUTPUT : shstring)
    (rest : list shstring) (log : list line) :
  entrypoint_case [] log
  = (Thrown 1, log ++ [echo (str "::error::MESSAGE argument is required")])
  /\ entrypoint_case ([] :: rest) log
     = (Thrown 1, log ++ [echo (str "::error::MESSAGE argument is required")])
  /\ (MESSAGE <> [] ->
      entrypoint_case [MESSAGE] log
      = process (str "true") MESSAGE (str "echo") log
      /\ entrypoint_case [MESSAGE; []; []] log
         = process (str "true") MESSAGE (str "echo") log
      /\ fst (entrypoint_case [MESSAGE] log) = Returned MESSAGE
      /\ (PROCESS_TYPE <> [] -> COLOR_OUTPUT <> [] ->
          entrypoint_case (MESSAGE :: PROCESS_TYPE :: COLOR_OUTPUT :: rest) log
          = process COLOR_OUTPUT MESSAGE PROCESS_TYPE log)).
Proof.
  split; [reflexivity|]. split; [reflexivity|].
  intros Hm. destruct MESSAGE as [|c m]; [contradiction|].
  split; [reflexivity|]. split; [reflexivity|]. split.
  - change (entrypoint_case [c :: m] log)
      with (process (str "true") (c :: m) (str "echo") log).
    apply process_echo.
  - intros Hp Hc. destruct PROCESS_TYPE as [|p ps]; [contradiction|].
    destruct COLOR_OUTPUT as [|k ks]; [contradiction|]. reflexivity.
Qed.

Lemma entrypoint_case_arguments_witness :
  fst (@entrypoint_case posix [str "Hello"] []) = Returned (str "Hello")
  /\ @entrypoint_case posix [str "Hello"; str "reverse"; str "false"] []
     = @process posix (str "false") (str "Hello") (str "reverse") [].
Proof.
  destruct (@entrypoint_case_arguments posix
              (str "Hello") (str "reverse") (str "false") [] [])
    as (_ & _ & H).
  destruct H as (_ & _ & H1 & H2); [discriminate|].
  split; [exact H1|]. apply H2; discriminate.
Defined.

(** *** The outputs of the script *)

Lemma to_stdout_print_colored (COLOR_OUTPUT color message : shstring)
    (log : list effect) :
  exists printed,
    to_stdout (print_colored COLOR_OUTPUT color message) log
    = (Returned tt, log ++ [stdout printed]).
Proof.
  unfold to_stdout, print_colored.
  destruct (Text.eqb COLOR_OUTPUT (str "true")); eexists; reflexivity.
Qed.

(** X18.  When [GITHUB_OUTPUT] is set and not empty the script appends to
    that file, and to no other, exactly three entries, in this order:
    [result=], [timestamp=] and [container-info=], each followed by its
    value as it is and a newline.  When it is unset or empty the script
    appends nothing and prints the three values instead. *)
Theorem set_outputs_appends (env : environment)
    (COLOR_OUTPUT PROCESS_TYPE RESULT : shstring) (log : list effect) :
  exists effects,
    set_outputs env COLOR_OUTPUT PROCESS_TYPE RESULT log
    = (Returned tt, log ++ effects)
    /\ match GITHUB_OUTPUT env with
       | [] =>
           appended effects = []
           /\ In (stdout (echo (str "   result=" ++ RESULT))) effects
           /\ In (stdout (echo (str "   timestamp=" ++ TIMESTAMP env))) effects
           /\ In (stdout (echo (str "   container-info="
                                 ++ CONTAINER_INFO env PROCESS_TYPE))) effects
       | file =>
           appended effects
           = [(file, str "result=" ++ RESULT ++ [LF]);
              (file, str "timestamp=" ++ TIMESTAMP env ++ [LF]);
              (file, str "container-info=" ++ CONTAINER_INFO env PROCESS_TYPE
                     ++ [LF])]
       end.
Proof.
  unfold set_outputs, bind.
  repeat match goal with
         | |- context [to_stdout (print_colored ?c ?col ?msg) ?l] =>
             destruct (to_stdout_print_colored c col msg l) as [? ->]
         end.
  unfold emit at 1.
  destruct (GITHUB_OUTPUT env) as [|g file]; cbn [length Nat.eqb negb];
    unfold bind, emit;
    repeat match goal with
           | |- context [to_stdout (print_colored ?c ?col ?msg) ?l] =>
               destruct (to_stdout_print_colored c col msg l) as [? ->]
           end;
    repeat rewrite <- app_assoc; cbn [app];
    eexists; (split; [reflexivity|]);
    cbn [appended In]; first [reflexivity | tauto].
Qed.

Lemma heredoc_line_newline (name value : shstring) (last_line : bool) :
  1 <= count_occ N.eq_dec (heredoc_line name value last_line) LF.
Proof.
  unfold heredoc_line. rewrite !count_occ_app.
  change (count_occ N.eq_dec [LF] LF) with 1. lia.
Qed.

(** X19.  The value written for [container-info] is never one line: it
    holds five newlines at least, whatever the container prints and
    whatever the process type is, so that the entry takes six lines or more
    of the file of outputs. *)
Theorem CONTAINER_INFO_is_multiline (env : environment) (PROCESS_TYPE : shstring) :
  5 <= count_occ N.eq_dec (CONTAINER_INFO env PROCESS_TYPE) LF
  /\ last (CONTAINER_INFO env PROCESS_TYPE) 0%N = 125%N.
Proof.
  unfold CONTAINER_INFO.
  set (l1 := heredoc_line (str "os") _ false).
  set (l2 := heredoc_line (str "shell") _ false).
  set (l3 := heredoc_line (str "process_type") _ false).
  set (l4 := heredoc_line (str "pwd") _ true).
  replace (str "{" ++ [LF] ++ l1 ++ l2 ++ l3 ++ l4 ++ str "}" ++ [LF])
    with ((str "{" ++ [LF] ++ l1 ++ l2 ++ l3 ++ l4 ++ str "}") ++ [LF])
    by (now rewrite <- !app_assoc).
  rewrite command_substitution_snoc.
  assert (Hlast : last (str "{" ++ [LF] ++ l1 ++ l2 ++ l3 ++ l4 ++ str "}") 0%N
                  = 125%N).
  { replace (str "{" ++ [LF] ++ l1 ++ l2 ++ l3 ++ l4 ++ str "}")
      with ((str "{" ++ [LF] ++ l1 ++ l2 ++ l3 ++ l4) ++ 125%N :: [])
      by (now rewrite <- !app_assoc).
    apply last_last. }
  rewrite command_substitution_id by (rewrite Hlast; discriminate).
  split; [|exact Hlast].
  rewrite !count_occ_app.
  pose proof (heredoc_line_newline (str "os")
                (command_substitution (os_release_output env)) false).
  pose proof (heredoc_line_newline (str "shell")
                (command_substitution (bash_version_output env)) false).
  pose proof (heredoc_line_newline (str "process_type") PROCESS_TYPE false).
  pose proof (heredoc_line_newline (str "pwd")
                (command_substitution (pwd_output env)) true).
  change (count_occ N.eq_dec [LF] LF) with 1.
  subst l1 l2 l3 l4. lia.
Qed.

(** *** The two word counts *)

Lemma word_counts_agree {C : Container} (s : jsstring) :
  (forall c, In c s ->
             is_whitespace c = isspace c
             /\ (isspace c = false -> iswprint c = true /\ iswspace c = false)) ->
  length (filter Spec.nonempty (tl (split_whitespace_from false s)))
  = count_words_from true s
  /\ length (filter Spec.nonempty (split_whitespace_from false s))
     = count_words_from false s
  /\ length (filter Spec.nonempty (split_whitespace_from true s))
     = count_words_from false s.
Proof.
  induction s as [|c s IH]; intros H; [repeat split; reflexivity|].
  destruct IH as (IH1 & IH2 & IH3).
  { intros d Hd. apply H. now right. }
  destruct (H c) as [Hws Hprint]; [now left|].
  simpl. rewrite Hws.
  destruct (isspace c).
  - repeat split; simpl; assumption.
  - destruct (Hprint eq_refl) as [-> ->].
    pose proof (split_whitespace_from_not_nil false s) as Hne.
    destruct (split_whitespace_from false s) as [|p rest]; [contradiction|].
    simpl in *. repeat split; lia.
Qed.

(** A printable ASCII character or an ASCII blank is classified alike by
    JavaScript and, in every locale, by the shell commands. *)
Lemma ascii_text_classes {C : Container} (laws : ContainerLaws C) (c : N) :
  (isspace c || (N.leb 33 c && N.leb c 126))%bool = true ->
  is_whitespace c = isspace c
  /\ (isspace c = false -> iswprint c = true /\ iswspace c = false).
Proof.
  intros H.
  assert (Hc : (9 <= c <= 13 \/ c = 32 \/ 33 <= c <= 126)%N).
  { unfold isspace in H.
    rewrite !orb_true_iff, !andb_true_iff, !N.leb_le, N.eqb_eq in H. tauto. }
  unfold is_whitespace, isspace.
  destruct Hc as [Hc|[Hc|Hc]]; split; decide_comparisons;
    try reflexivity; try discriminate.
  intros _.
  rewrite (iswprint_ascii c), (iswspace_ascii c)
    by (unfold is_ascii; decide_comparisons; reflexivity).
  unfold isspace. decide_comparisons. split; reflexivity.
Qed.

(** X20.  On a message of printable ASCII characters and ASCII blanks (tab
    to carriage return, and space) that [echo] prints as it is, where the
    UTF-16 code units of the text and its characters in the locale of the
    container are the same numbers, the two actions count alike: the
    [count] branch of the script reports the [charCount] and the
    [wordCount] of [analyzeText]. *)
Theorem count_agrees_with_analyzeText {CM : CaseMapping} {C : Container}
    (laws : ContainerLaws C)
    (COLOR_OUTPUT MESSAGE : shstring) (log : list line) :
  is_echo_option MESSAGE = false ->
  forallb (fun c => isspace c || (N.leb 33 c && N.leb c 126))%bool MESSAGE = true ->
  fst (process COLOR_OUTPUT MESSAGE (str "count") log)
  = Returned (str "Characters: " ++ of_nat (charCount (analyzeText MESSAGE))
              ++ str ", Words: " ++ of_nat (wordCount (analyzeText MESSAGE))).
Proof.
  intros Hopt Hascii. rewrite (count_branch COLOR_OUTPUT MESSAGE log Hopt).
  destruct (analyzeText_words MESSAGE) as [-> _].
  assert (Hclasses : forall c, In c MESSAGE ->
            is_whitespace c = isspace c
            /\ (isspace c = false -> iswprint c = true /\ iswspace c = false)).
  { intros c Hc. apply (ascii_text_classes laws).
    rewrite forallb_forall in Hascii. now apply Hascii. }
  destruct (word_counts_agree MESSAGE Hclasses) as (_ & E & _).
  unfold split_whitespace. rewrite E. reflexivity.
Qed.

Lemma posix_laws : ContainerLaws posix.
Proof. split; intros c H; reflexivity. Qed.

Lemma count_agrees_with_analyzeText_witness :
  fst (@process posix (str "true") (str "The quick  brown fox") (str "count") [])
  = Returned (str "Characters: "
              ++ of_nat (charCount (@analyzeText ascii_case (str "The quick  brown fox")))
              ++ str ", Words: "
              ++ of_nat (wordCount (@analyzeText ascii_case (str "The quick  brown fox")))).
Proof.
  apply (@count_agrees_with_analyzeText ascii_case posix posix_laws);
    reflexivity.
Defined.
